(** * The audio-to-event pipeline of app.py

    A shallow embedding of [translate_text], [process_audio],
    [websocket_handler] and [start_audio_device], and the properties of the
    pipeline proved on it.

    Coroutines are written in a state-and-exception monad that follows the
    Python text statement by statement.  What the environment answers (the
    recognizer, the socket, the translation service, the scheduler) is an
    explicit argument of each function.  Python 3.8 or later is assumed:
    [asyncio.CancelledError] derives from [BaseException], so the handlers
    [except Exception] of the source do not catch it. *)

From Stdlib Require Import ZArith String List Bool Lia.
From stdpp Require Import base option list gmap sets strings.

Open Scope string_scope.
Open Scope list_scope.

(** ** Python values and exceptions *)

(** The subclasses of [Exception] that the modelled code can meet. *)
Inductive exception : Type :=
| TimeoutError          (* asyncio.TimeoutError *)
| JSONDecodeError       (* json.JSONDecodeError *)
| KeyError
| IndexError
| TypeError
| AttributeError
| PortAudioError        (* sd.PortAudioError *)
| OtherException (name : string).

(** What a synchronous call does: it returns a value or raises. *)
Inductive result (A : Type) : Type :=
| Ok (a : A)
| Raise (e : exception).
Arguments Ok {A} a.
Arguments Raise {A} e.

(** What unwinds the stack of a coroutine: an [Exception], or the
    [CancelledError] that [Task.cancel] throws into it. *)
Inductive raised : Type :=
| Exc (e : exception)
| CancelledError.

(** How a statement of a coroutine completes. *)
Inductive completion (A : Type) : Type :=
| Normal (a : A)
| Abrupt (e : raised).
Arguments Normal {A} a.
Arguments Abrupt {A} e.

(** The value of [json.loads] / [response.json()]: a dict keeps its items in
    insertion order, its keys are strings. *)
#[warnings="-register-all"]
Inductive pyval : Type :=
| PyNone
| PyBool (b : bool)
| PyInt (n : Z)
| PyFloat (literal : string)
| PyStr (s : string)
| PyList (items : list pyval)
| PyDict (items : list (string * pyval)).

Fixpoint dict_get (items : list (string * pyval)) (key : string) : option pyval :=
  match items with
  | [] => None
  | (k, v) :: rest => if String.eqb k key then Some v else dict_get rest key
  end.

(** [v[0]] *)
Definition getitem_0 (v : pyval) : result pyval :=
  match v with
  | PyList [] => Raise IndexError
  | PyList (x :: _) => Ok x
  | PyStr EmptyString => Raise IndexError
  | PyStr (String c _) => Ok (PyStr (String c EmptyString))
  | PyDict _ => Raise KeyError       (* no JSON object has the key 0 *)
  | _ => Raise TypeError
  end.

(** [v[key]] for a string [key] *)
Definition getitem (v : pyval) (key : string) : result pyval :=
  match v with
  | PyDict items =>
      match dict_get items key with
      | Some x => Ok x
      | None => Raise KeyError
      end
  | _ => Raise TypeError               (* list and str want an integer *)
  end.

(** [v.get(key)]: only a dict has the method. *)
Definition get (v : pyval) (key : string) : result pyval :=
  match v with
  | PyDict items => Ok (default PyNone (dict_get items key))
  | _ => Raise AttributeError
  end.

(** [v == s] for a string [s] *)
Definition eq_str (v : pyval) (s : string) : bool :=
  match v with
  | PyStr s' => String.eqb s' s
  | _ => false
  end.

(** ** Logging *)

Inductive level : Type := INFO | WARNING | ERROR.

(** The pieces of an f-string. *)
Inductive piece : Type :=
| Lit (s : string)
| Str (s : string)
| Val (v : pyval)
| Num (n : Z)
| ExcStr (e : exception)     (* str(e) *)
| Traceback (e : exception)  (* traceback.format_exc() *)
| WsException.               (* ws.exception() *)

Definition log_entry : Type := level * list piece.

(** A state that carries the output of [logger]. *)
Class Logger (S : Type) : Type := logger_append : log_entry → S → S.

(** ** The state-and-exception monad *)

Definition M (S A : Type) : Type := S → completion A * S.

Definition ret {S A} (a : A) : M S A := λ s, (Normal a, s).

Definition bind {S A B} (m : M S A) (k : A → M S B) : M S B :=
  λ s, match m s with
       | (Normal a, s') => k a s'
       | (Abrupt e, s') => (Abrupt e, s')
       end.

Definition raise {S A} (e : exception) : M S A := λ s, (Abrupt (Exc e), s).

(** [lift r]: a synchronous call that does not touch the state. *)
Definition lift {S A} (r : result A) : M S A :=
  λ s, match r with
       | Ok a => (Normal a, s)
       | Raise e => (Abrupt (Exc e), s)
       end.

(** [try: m  except Exception as e: handler e].  [CancelledError] is not an
    [Exception] and passes through. *)
Definition try_except {S A} (m : M S A) (handler : exception → M S A) : M S A :=
  λ s, match m s with
       | (Normal a, s') => (Normal a, s')
       | (Abrupt (Exc e), s') => handler e s'
       | (Abrupt CancelledError, s') => (Abrupt CancelledError, s')
       end.

(** [try: m  except cls as e: handler e], for a class [cls] of exceptions. *)
Definition try_except_only {S A} (cls : exception → bool) (m : M S A)
    (handler : exception → M S A) : M S A :=
  λ s, match m s with
       | (Abrupt (Exc e), s') => if cls e then handler e s' else (Abrupt (Exc e), s')
       | r => r
       end.

(** [try: m  except asyncio.CancelledError: pass] *)
Definition except_cancelled_pass {S} (m : M S unit) : M S unit :=
  λ s, match m s with
       | (Abrupt CancelledError, s') => (Normal tt, s')
       | r => r
       end.

(** [try: m  finally: f] *)
Definition try_finally {S A} (m : M S A) (f : M S unit) : M S A :=
  λ s, match m s with
       | (c, s') =>
           match f s' with
           | (Normal _, s'') => (c, s'')
           | (Abrupt e, s'') => (Abrupt e, s'')
           end
       end.

Definition log {S} `{Logger S} (l : level) (msg : list piece) : M S unit :=
  λ s, (Normal tt, logger_append (l, msg) s).

Global Instance M_ret {S} : MRet (M S) := λ A, @ret S A.
Global Instance M_bind {S} : MBind (M S) := λ A B k m, @bind S A B m k.

(** ** The task running [process_audio] *)

(** The messages handed to [websocket.send_str]. *)
Inductive message : Type :=
| listening_started
| transcription (text : string) (partial : bool)
| translation (text : pyval).

(** The dict that [json.dumps] serialises for each message. *)
Definition payload (m : message) : pyval :=
  match m with
  | listening_started =>
      PyDict [("type", PyStr "listening_started"); ("message", PyStr "Listening...")]
  | transcription text false =>
      PyDict [("type", PyStr "transcription"); ("text", PyStr text)]
  | transcription text true =>
      PyDict [("type", PyStr "transcription"); ("text", PyStr text);
              ("partial", PyBool true)]
  | translation text =>
      PyDict [("type", PyStr "translation"); ("text", text)]
  end.

(** The state of one [process_audio] task: its local [current_partial], the
    messages it has passed to [send_str] (in call order), what it logged, and
    a ghost field recording how many messages had been sent when a
    [CancelledError] was thrown into it. *)
Record task : Type := Task {
  current_partial : string;
  sent : list message;
  logged : list log_entry;
  cancel_seen : option nat;
}.

Definition new_task : task := Task EmptyString [] [] None.

(** What an [await] comes back with. *)
Inductive awaited (A : Type) : Type :=
| Returns (a : A)
| Throws (e : exception)
| Cancelled.                  (* CancelledError came out of the await *)
Arguments Returns {A} a.
Arguments Throws {A} e.
Arguments Cancelled {A}.

Definition await {A} (o : awaited A) : M task A :=
  λ w, match o with
       | Returns a => (Normal a, w)
       | Throws e => (Abrupt (Exc e), w)
       | Cancelled =>
           (Abrupt CancelledError,
            Task (current_partial w) (sent w) (logged w) (Some (length (sent w))))
       end.

Global Instance task_logger : Logger task :=
  λ entry w, Task (current_partial w) (sent w) (logged w ++ [entry]) (cancel_seen w).

(** [await websocket.send_str(json.dumps(payload m))] *)
Definition send_str (m : message) (o : awaited unit) : M task unit :=
  λ w, await o (Task (current_partial w) (sent w ++ [m]) (logged w) (cancel_seen w)).

Definition get_current_partial : M task string := λ w, (Normal (current_partial w), w).

Definition set_current_partial (s : string) : M task unit :=
  λ w, (Normal tt, Task s (sent w) (logged w) (cancel_seen w)).

(** ** translate_text *)

Definition API_KEY : string := "api key".
Definition REGION : string := "region".
Definition ENDPOINT : string := "https://api.cognitive.microsofttranslator.com/translate".

Module requests.

Record request : Type := Request {
  url : string;
  params : list (string * string);
  headers : list (string * string);
  json_body : pyval;
}.

(** A [requests.Response]: [json] is what [response.json()] does. *)
Record response : Type := Response {
  status_code : Z;
  text : string;
  json : result pyval;
}.

End requests.
Import requests (request, Request, response, Response).

(** The request that [translate_text] posts. *)
Definition translate_request (text target_lang : string) : request :=
  Request ENDPOINT
          [("api-version", "3.0"); ("to", target_lang)]
          [("Ocp-Apim-Subscription-Key", API_KEY);
           ("Ocp-Apim-Subscription-Region", REGION);
           ("Content-Type", "application/json")]
          (PyList [PyDict [("text", PyStr text)]]).

(** [response.json()[0]["translations"][0]["text"]] *)
Definition translated_text_of (response : response) : result pyval :=
  match requests.json response with
  | Raise e => Raise e
  | Ok body =>
      match getitem_0 body with
      | Raise e => Raise e
      | Ok first =>
          match getitem first "translations" with
          | Raise e => Raise e
          | Ok translations =>
              match getitem_0 translations with
              | Raise e => Raise e
              | Ok best => getitem best "text"
              end
          end
      end
  end.

(** [post req] is what [await asyncio.wait_for(future, timeout=5.0)] comes
    back with for the posted request: the response, [asyncio.TimeoutError]
    once the five seconds are over, the exception of [requests.post], or
    the CancelledError of a cancelled task.  Before Python 3.12 [wait_for]
    does not always raise in a cancelled task: when the call has just
    finished it hands over its result, which is the answer [Returns]. *)
Definition translate_text (post : request → awaited response)
    (text target_lang : string) : M task pyval :=
  try_except
    (response ← await (post (translate_request text target_lang));
     if (requests.status_code response =? 200)%Z then
       lift (translated_text_of response)
     else
       log ERROR [Lit "Translation Error: "; Num (requests.status_code response);
                  Lit ", "; Str (requests.text response)];;
       mret (PyStr text))
    (λ e, match e with
          | TimeoutError =>
              log ERROR [Lit "Translation request timed out"];;
              mret (PyStr text)
          | _ =>
              log ERROR [Lit "Translation exception: "; ExcStr e];;
              log ERROR [Traceback e];;
              mret (PyStr text)
          end).

(** ** process_audio *)

(** What the recognizer reports on one block of audio.  Vosk answers with a
    JSON object whose members text and partial are strings, so the parsed
    result is a map from keys to strings. *)
Inductive recognition : Type :=
| Final (result : gmap string string)     (* AcceptWaveform: True; json.loads(rec.Result()) *)
| Partial (partial : gmap string string)  (* AcceptWaveform: False; json.loads(rec.PartialResult()) *)
| Fault (e : exception).                  (* the recognizer raised *)

(** What the environment answers during one turn of the [while] loop. *)
Record iteration : Type := Iteration {
  stop_is_set : bool;                          (* should_stop.is_set() *)
  queue_get : option (list Byte.byte);         (* audio_queue.get(timeout=0.1); None: queue.Empty *)
  AcceptWaveform : list Byte.byte → recognition;
  send_final : awaited unit;                   (* line 127 *)
  post : request → awaited response;           (* line 73, through line 130 *)
  send_translation : awaited unit;             (* line 138 *)
  send_partial : awaited unit;                 (* line 152 *)
  sleep : awaited unit;                        (* line 158 *)
}.

(** Lines 106-158: the [try] statement inside the loop. *)
Definition loop_body (target_lang : string) (it : iteration) : M task unit :=
  try_except
    (match queue_get it with
     | None => mret tt
     | Some data =>
         match AcceptWaveform it data with
         | Fault e => raise e
         | Final result =>
             let text := default EmptyString (result !! "text") in
             if bool_decide (text ≠ EmptyString) then
               log INFO [Lit "Sending transcription: "; Str text];;
               send_str (transcription text false) (send_final it);;
               translated_text ← translate_text (post it) text target_lang;
               log INFO [Lit "Sending translation: "; Val translated_text];;
               send_str (translation translated_text) (send_translation it)
             else mret tt
         | Partial partial =>
             let partial_text := default EmptyString (partial !! "partial") in
             current ← get_current_partial;
             if bool_decide (partial_text ≠ EmptyString)
                && bool_decide (partial_text ≠ current) then
               set_current_partial partial_text;;
               send_str (transcription partial_text true) (send_partial it)
             else mret tt
         end
     end)
    (λ e,
       log ERROR [Lit "Error processing audio data: "; ExcStr e];;
       log ERROR [Traceback e];;
       await (sleep it)).

(** Whether the [while] loop is still turning when the answers run out. *)
Inductive progress : Type := Looping | Exited.

(** Lines 105-158.  Each turn consumes one [iteration]. *)
Fixpoint while_loop (target_lang : string) (its : list iteration) : M task progress :=
  match its with
  | [] => mret Looping
  | it :: rest =>
      if stop_is_set it then mret Exited
      else loop_body target_lang it;; while_loop target_lang rest
  end.

(** What the environment answers to one [process_audio] task. *)
Record oracle : Type := Oracle {
  cancelled_before_start : bool;        (* Task.cancel() before the first step *)
  KaldiRecognizer : option exception;   (* line 97: None, or what it raised *)
  send_status : awaited unit;           (* line 102 *)
  iterations : list iteration;
}.

(** Lines 96-163. *)
Definition process_audio (target_lang : string) (o : oracle) : M task progress :=
  p ← try_except
        (match KaldiRecognizer o with
         | Some e => raise e
         | None => mret tt
         end;;
         set_current_partial EmptyString;;
         send_str listening_started (send_status o);;
         log INFO [Lit "Sent listening_started message to client"];;
         while_loop target_lang (iterations o))
        (λ e,
           log ERROR [Lit "Fatal error in process_audio: "; ExcStr e];;
           log ERROR [Traceback e];;
           mret Exited);
  match p with
  | Looping => mret Looping
  | Exited => log INFO [Lit "Audio processing stopped"];; mret Exited
  end.

(** How an [asyncio.Task] ended, and its state. *)
Inductive ending : Type :=
| Returned                  (* the coroutine returned *)
| WasCancelled              (* it ended with CancelledError *)
| Raised (e : exception).

Inductive status : Type :=
| Pending                   (* still in its loop when the answers ran out *)
| Finished (e : ending).

(** [asyncio.create_task(process_audio(ws, target_lang))], run against [o]. *)
Definition run_task (target_lang : string) (o : oracle) : status * task :=
  if cancelled_before_start o then
    (Finished WasCancelled, Task EmptyString [] [] (Some 0))
  else
    match process_audio target_lang o new_task with
    | (Normal Looping, w) => (Pending, w)
    | (Normal Exited, w) => (Finished Returned, w)
    | (Abrupt CancelledError, w) => (Finished WasCancelled, w)
    | (Abrupt (Exc e), w) => (Finished (Raised e), w)
    end.


(** ** The registry, the stop signal and the capture device *)

(** A [start_audio_device] task. *)
Inductive capture : Type :=
| Created                 (* scheduled by create_task, not yet run *)
| Open                    (* inside [with stream], asleep in its polling loop *)
| Closed                  (* left [with stream]: the device is stopped *)
| Broken (e : exception). (* opening the stream raised; the task is over *)

(** The global state of the server.  A websocket is identified by a number,
    as an object is by its address; [captures] lists the tasks created at
    line 185, oldest first. *)
Record server : Type := Server {
  active_connections : gset nat;
  should_stop : bool;
  captures : list capture;
  server_log : list log_entry;
}.

Definition initial : server := Server ∅ false [] [].

Global Instance server_logger : Logger server :=
  λ entry s, Server (active_connections s) (should_stop s) (captures s) (server_log s ++ [entry]).

Definition add (ws : nat) : M server unit :=
  λ s, (Normal tt, Server ({[ws]} ∪ active_connections s) (should_stop s) (captures s) (server_log s)).

(** [active_connections.remove(ws)] raises KeyError on a missing element. *)
Definition remove (ws : nat) : M server unit :=
  λ s, if bool_decide (ws ∈ active_connections s) then
         (Normal tt, Server (active_connections s ∖ {[ws]}) (should_stop s) (captures s) (server_log s))
       else (Abrupt (Exc KeyError), s).

Definition len : M server nat := λ s, (Normal (size (active_connections s)), s).

Definition should_stop_set (b : bool) : M server unit :=
  λ s, (Normal tt, Server (active_connections s) b (captures s) (server_log s)).

(** [asyncio.create_task(start_audio_device())] *)
Definition create_capture_task : M server unit :=
  λ s, (Normal tt, Server (active_connections s) (should_stop s) (captures s ++ [Created]) (server_log s)).

(** Lines 174-185 of [websocket_handler]. *)
Definition open_connection (ws : nat) (target_lang : string) : M server unit :=
  log INFO [Lit "New WebSocket connection, target language: "; Str target_lang];;
  add ws;;
  n ← len;
  if (n =? 1)%nat then
    should_stop_set false;;
    create_capture_task
  else mret tt.

(** Lines 213-219: the [finally] block of [websocket_handler]. *)
Definition close_connection (ws : nat) : M server unit :=
  remove ws;;
  n ← len;
  if (n =? 0)%nat then
    should_stop_set true;;
    log INFO [Lit "No active connections, stopping audio capture"]
  else mret tt.

(** [should_stop.is_set()] *)
Definition should_stop_is_set : M server bool := λ s, (Normal (should_stop s), s).

(** The capture task [i] moves to the state [c]. *)
Definition set_capture (i : nat) (c : capture) : M server unit :=
  λ s, (Normal tt,
        Server (active_connections s) (should_stop s) (<[i := c]> (captures s)) (server_log s)).

(** The first step of a [start_audio_device] task, lines 225-249: it opens
    the stream ([device] is what [sd.RawInputStream] raised, if anything),
    tests the stop signal and goes to sleep, or leaves at once. *)
Definition capture_start (i : nat) (device : option exception) : M server unit :=
  match device with
  | Some e =>
      set_capture i (Broken e);;
      match e with
      | PortAudioError =>
          log ERROR [Lit "PortAudio error: "; ExcStr e];;
          log ERROR [Traceback e];;
          log ERROR [Lit "Check your audio device settings and make sure a microphone is connected"]
      | _ =>
          log ERROR [Lit "Error with audio device: "; ExcStr e];;
          log ERROR [Traceback e]
      end
  | None =>
      log INFO [Lit "Audio device started successfully"];;
      stop ← should_stop_is_set;
      if stop : bool then
        set_capture i Closed;;
        log INFO [Lit "Audio device stopped"]
      else set_capture i Open
  end.

(** A later step, lines 239-242: the task wakes from [asyncio.sleep(0.1)]
    and tests the stop signal again. *)
Definition capture_poll (i : nat) : M server unit :=
  stop ← should_stop_is_set;
  if stop : bool then
    set_capture i Closed;;
    log INFO [Lit "Audio device stopped"]
  else ret tt.

(** Lines 259-264, up to the first [await]. *)
Definition on_shutdown : M server unit := should_stop_set true.

(** What the event loop runs next. *)
Inductive event : Type :=
| Connect (ws : nat) (target_lang : string)  (* a handler reaches line 185 *)
| Disconnect (ws : nat)                      (* a handler runs its finally block *)
| Start (i : nat) (device : option exception)
| Poll (i : nat)
| Shutdown.

Definition completed (r : completion unit * server) : option server :=
  match r with
  | (Normal _, s) => Some s
  | (Abrupt _, _) => None
  end.

(** One step of the event loop; [None] when the event cannot happen in [s]:
    a websocket object is added once and removed by its own handler, a
    capture task starts once and polls while it is open. *)
Definition step (s : server) (ev : event) : option server :=
  match ev with
  | Connect ws target_lang =>
      if bool_decide (ws ∈ active_connections s) then None
      else completed (open_connection ws target_lang s)
  | Disconnect ws => completed (close_connection ws s)
  | Start i device =>
      match captures s !! i with
      | Some Created => completed (capture_start i device s)
      | _ => None
      end
  | Poll i =>
      match captures s !! i with
      | Some Open => completed (capture_poll i s)
      | _ => None
      end
  | Shutdown => completed (on_shutdown s)
  end.

Fixpoint run (s : server) (evs : list event) : option server :=
  match evs with
  | [] => Some s
  | ev :: rest =>
      match step s ev with
      | Some s' => run s' rest
      | None => None
      end
  end.

Definition is_open (c : capture) : bool :=
  match c with
  | Open => true
  | _ => false
  end.

(** The capture device is running: some stream is open. *)
Definition running (s : server) : bool := existsb is_open (captures s).

(** ** websocket_handler *)

Module WSMsgType.
Inductive t : Type :=
| CONTINUATION | TEXT | BINARY | PING | PONG | CLOSE | CLOSING | CLOSED | ERROR.
End WSMsgType.

Record WSMessage : Type := WSMsg {
  type : WSMsgType.t;
  data : string;
}.

(** [async for msg in ws] stops on these. *)
Definition closes (t : WSMsgType.t) : bool :=
  match t with
  | WSMsgType.CLOSE | WSMsgType.CLOSING | WSMsgType.CLOSED => true
  | _ => false
  end.

Definition is_JSONDecodeError (e : exception) : bool :=
  match e with
  | JSONDecodeError => true
  | _ => false
  end.

Inductive control : Type := Continue | Break.

Section Handler.

(** [json.loads] on the text of a client message. *)
Variable json_loads : string → result pyval.

(** Lines 193-203: the body of the [async for]. *)
Definition on_message (msg : WSMessage) : M server control :=
  match type msg with
  | WSMsgType.TEXT =>
      try_except_only is_JSONDecodeError
        (log INFO [Lit "Received WebSocket message: "; Str (data msg)];;
         data ← lift (json_loads (data msg));
         command ← lift (get data "command");
         if eq_str command "stop" then mret Break else mret Continue)
        (λ _,
           log WARNING [Lit "Received invalid JSON: "; Str (data msg)];;
           mret Continue)
  | WSMsgType.ERROR =>
      log ERROR [Lit "WebSocket error: "; WsException];;
      mret Break
  | _ => mret Continue
  end.

(** Lines 192-203.  [msgs] is what the socket delivers, in order; after the
    last message it is closed. *)
Fixpoint receive_loop (msgs : list WSMessage) : M server unit :=
  match msgs with
  | [] => mret tt
  | msg :: rest =>
      if closes (type msg) then mret tt
      else
        c ← on_message msg;
        match c with
        | Break => mret tt
        | Continue => receive_loop rest
        end
  end.

(** [await process_task], for a task that ended as [e]. *)
Definition await_task (e : ending) : M server unit :=
  match e with
  | Returned => mret tt
  | WasCancelled => λ s, (Abrupt CancelledError, s)
  | Raised x => raise x
  end.

(** Lines 187-219: the [try] / [finally] statement, as the handler sees it.
    [process_task] is how the task created at line 189 has ended when line
    208 awaits it; line 206, [process_task.cancel()], and what the task does
    about it are not part of this function. *)
Definition serve (ws : nat) (msgs : list WSMessage) (process_task : ending) : M server unit :=
  try_finally
    (receive_loop msgs;;
     except_cancelled_pass (await_task process_task))
    (close_connection ws).

End Handler.

(** ** Sample answers of the environment, used in the examples *)

Definition final_of (text : string) : recognition := Final {[ "text" := text ]}.
Definition partial_of (text : string) : recognition := Partial {[ "partial" := text ]}.

(** A turn of the loop that pops a block on which the recognizer reports
    [r]; every send succeeds and the translation service times out. *)
Definition heard (r : recognition) : iteration :=
  Iteration false (Some []) (λ _, r) (Returns tt) (λ _, Throws TimeoutError)
            (Returns tt) (Returns tt) (Returns tt).

(** A well-formed answer of the translation service. *)
Definition fr_ok : response :=
  Response 200 "ok"
    (Ok (PyList [PyDict [("translations", PyList [PyDict [("text", PyStr "bonjour")]])]])).

(** A task that starts normally and goes through the turns [its]. *)
Definition listens (its : list iteration) : oracle := Oracle false None (Returns tt) its.

(** ** Vocabulary of the properties *)

(** Weakest precondition of a statement. *)
Definition wp {S A} (m : M S A) (Q : completion A → S → Prop) (s : S) : Prop :=
  Q (m s).1 (m s).2.

(** The texts of the partial transcription events of a trace, in order. *)
Fixpoint partials (l : list message) : list string :=
  match l with
  | [] => []
  | transcription text true :: rest => text :: partials rest
  | _ :: rest => partials rest
  end.

(** No two neighbours of the list are equal. *)
Fixpoint no_repeat (l : list string) : Prop :=
  match l with
  | a :: (b :: _) as rest => a ≠ b ∧ no_repeat rest
  | _ => True
  end.

(** [v] is something [translate_text] returns for [text]. *)
Definition translates (target_lang text : string) (v : pyval) : Prop :=
  ∃ post w, (translate_text post text target_lang w).1 = Normal v.

(** What one turn of the loop passes to [send_str], with [current_partial]
    before and after. *)
Inductive block (target_lang : string) : string → list message → string → Prop :=
| block_silent cp : block target_lang cp [] cp
| block_partial cp text :
    text ≠ EmptyString → text ≠ cp →
    block target_lang cp [transcription text true] text
| block_final cp text :
    text ≠ EmptyString →
    block target_lang cp [transcription text false] cp
| block_translated cp text v :
    text ≠ EmptyString → translates target_lang text v →
    block target_lang cp [transcription text false; translation v] cp.

Inductive blocks (target_lang : string) : string → list message → string → Prop :=
| blocks_nil cp : blocks target_lang cp [] cp
| blocks_snoc cp l cp' l' cp'' :
    blocks target_lang cp l cp' → block target_lang cp' l' cp'' →
    blocks target_lang cp (l ++ l') cp''.

(** The ghost field follows the cancellation: it is set when the statement
    ends with [CancelledError], and only then. *)
Definition cancel_clause {A} (w : task) (c : completion A) (w' : task) : Prop :=
  match c with
  | Abrupt CancelledError => cancel_seen w' = Some (length (sent w'))
  | _ => cancel_seen w' = cancel_seen w
  end.

(** The summary of one turn of the loop, and of any number of turns. *)
Definition turn_spec (target_lang : string) (w : task) (c : completion unit) (w' : task) : Prop :=
  (∃ em, sent w' = sent w ++ em
         ∧ block target_lang (current_partial w) em (current_partial w'))
  ∧ cancel_clause w c w'.

Definition loop_spec {A} (target_lang : string) (w : task) (c : completion A) (w' : task) : Prop :=
  (∃ em, sent w' = sent w ++ em
         ∧ blocks target_lang (current_partial w) em (current_partial w'))
  ∧ cancel_clause w c w'.

(** The trace of a task starts with [listening_started], if it starts at
    all, and goes on with the blocks of its loop. *)
Definition session_trace (target_lang : string) (w : task) : Prop :=
  (sent w = [] ∧ current_partial w = EmptyString)
  ∨ ∃ em, sent w = listening_started :: em
          ∧ blocks target_lang EmptyString em (current_partial w).

Definition session_spec (target_lang : string) (c : completion progress) (w' : task) : Prop :=
  session_trace target_lang w'
  ∧ match c with
    | Normal _ => cancel_seen w' = None
    | Abrupt CancelledError => cancel_seen w' = Some (length (sent w'))
    | Abrupt (Exc _) => False
    end.

(** The texts of the final transcription events of a trace, in order. *)
Fixpoint finals (l : list message) : list string :=
  match l with
  | [] => []
  | transcription text false :: rest => text :: finals rest
  | _ :: rest => finals rest
  end.

(** With nobody connected, the stop signal is set, unless no capture task was
    ever created. *)
Definition idle_inv (s : server) : Prop :=
  size (active_connections s) = 0 → should_stop s = true ∨ captures s = [].

(** The handler reads the message and goes on to the next one. *)
Definition passes (json_loads : string → result pyval) (msg : WSMessage) : Prop :=
  closes (type msg) = false
  ∧ ∀ s, (on_message json_loads msg s).1 = Normal Continue.

(** The state [s] with [lg] added to its log. *)
Definition logging (s : server) (lg : list log_entry) : server :=
  Server (active_connections s) (should_stop s) (captures s) (server_log s ++ lg).

(** The message is a transcription or a translation. *)
Definition is_text_event (m : message) : bool :=
  match m with
  | listening_started => false
  | _ => true
  end.

(** ** audio_callback and the frame queue *)

(** The capture thread's side of the program: the process-wide
    [audio_queue], oldest block first, and the logger. *)
Record capture_side : Type := CaptureSide {
  audio_queue : list (list Byte.byte);
  capture_log : list log_entry;
}.

Global Instance capture_side_logger : Logger capture_side :=
  λ entry s, CaptureSide (audio_queue s) (capture_log s ++ [entry]).

(** [audio_queue.put(block)] *)
Definition put (block : list Byte.byte) : M capture_side unit :=
  λ s, (Normal tt, CaptureSide (audio_queue s ++ [block]) (capture_log s)).

(** [audio_queue.get(timeout=0.1)], with [None] for [queue.Empty]. *)
Definition get_block : M capture_side (option (list Byte.byte)) :=
  λ s, match audio_queue s with
       | [] => (Normal None, s)
       | block :: rest => (Normal (Some block), CaptureSide rest (capture_log s))
       end.

(** Lines 88-92.  [status] is [None] when no flag of the CallbackFlags
    object is set (it is false then), and [Some flags] with its text
    otherwise; [frames] and [time] are not used. *)
Definition audio_callback (indata : list Byte.byte) (status : option string)
    : M capture_side unit :=
  match status with
  | Some flags => log WARNING [Lit "Audio status: "; Str flags]
  | None => mret tt
  end;;
  put indata.

(** The hardware calls back once per block. *)
Fixpoint callbacks (calls : list (list Byte.byte * option string)) : M capture_side unit :=
  match calls with
  | [] => mret tt
  | (indata, status) :: rest => audio_callback indata status;; callbacks rest
  end.

(** [n] turns of a consumer, each popping one block; the blocks popped. *)
Fixpoint get_blocks (n : nat) : M capture_side (list (list Byte.byte)) :=
  match n with
  | 0 => mret []
  | S n' =>
      b ← get_block;
      match b with
      | None => mret []
      | Some block => bs ← get_blocks n'; mret (block :: bs)
      end
  end.

(** ** Vocabulary of the further properties *)

(** A turn that finds the stop signal clear and the queue empty. *)
Definition idle (it : iteration) : bool :=
  negb (stop_is_set it) && bool_decide (queue_get it = None).

(** A turn in which the stop signal is clear, the task is not cancelled at
    any await, and the sleep after an error returns. *)
Definition benign (it : iteration) : Prop :=
  stop_is_set it = false
  ∧ sleep it = Returns tt
  ∧ send_final it ≠ Cancelled
  ∧ send_translation it ≠ Cancelled
  ∧ send_partial it ≠ Cancelled
  ∧ ∀ req, post it req ≠ Cancelled.

(** The oracle [o] with its turns replaced by [its]. *)
Definition with_iterations (o : oracle) (its : list iteration) : oracle :=
  Oracle (cancelled_before_start o) (KaldiRecognizer o) (send_status o) its.

(** The message types on which the handler acts or stops. *)
Definition relevant (msg : WSMessage) : bool :=
  match type msg with
  | WSMsgType.TEXT | WSMsgType.ERROR => true
  | t => closes t
  end.

(** The capture task is over: its stream is closed or never opened. *)
Definition over (c : capture) : bool :=
  match c with
  | Closed | Broken _ => true
  | _ => false
  end.

(** A JSON value that is an object. *)
Definition is_dict (v : pyval) : bool :=
  match v with
  | PyDict _ => true
  | _ => false
  end.

(** What a sequence of callbacks logs: a warning for each status with a
    flag set. *)
Definition warnings (calls : list (list Byte.byte * option string)) : list log_entry :=
  flat_map (λ call, match call.2 with
                    | Some flags => [(WARNING, [Lit "Audio status: "; Str flags])]
                    | None => []
                    end) calls.

(** The event is a new connection. *)
Definition is_connect (ev : event) : bool :=
  match ev with
  | Connect _ _ => true
  | _ => false
  end.

(** The turn [it] while a cancellation waits for the task: CancelledError
    comes out of the first await that the turn reaches. *)
Definition cancel_pending (it : iteration) : iteration :=
  Iteration (stop_is_set it) (queue_get it) (AcceptWaveform it)
            Cancelled (λ _, Cancelled) Cancelled Cancelled Cancelled.

(** A turn in which nothing is heard: the stop signal is clear, and the
    queue is empty or the recognizer reports an empty text. *)
Definition silent (it : iteration) : Prop :=
  stop_is_set it = false
  ∧ match queue_get it with
    | None => True
    | Some data =>
        match AcceptWaveform it data with
        | Final r => default EmptyString (r !! "text") = EmptyString
        | Partial r => default EmptyString (r !! "partial") = EmptyString
        | Fault _ => False
        end
    end.

(** * Properties *)

(** ** Rules of the weakest precondition *)

Section Rules.
Context {S : Type}.
Implicit Types s : S.

Lemma wp_ret {A} (a : A) (Q : completion A → S → Prop) s :
  Q (Normal a) s → wp (mret a) Q s.
Proof. done. Qed.

Lemma wp_bind {A B} (m : M S A) (k : A → M S B) (Q : completion B → S → Prop) s :
  wp m (λ c s', match c with
                | Normal a => wp (k a) Q s'
                | Abrupt e => Q (Abrupt e) s'
                end) s →
  wp (m ≫= k) Q s.
Proof.
  unfold wp, mbind, M_bind, bind. by destruct (m s) as [[a | e] s'].
Qed.

Lemma wp_try_except {A} (m : M S A) (h : exception → M S A) (Q : completion A → S → Prop) s :
  wp m (λ c s', match c with
                | Abrupt (Exc e) => wp (h e) Q s'
                | _ => Q c s'
                end) s →
  wp (try_except m h) Q s.
Proof.
  unfold wp, try_except. by destruct (m s) as [[a | [e |]] s'].
Qed.

Lemma wp_raise {A} (e : exception) (Q : completion A → S → Prop) s :
  Q (Abrupt (Exc e)) s → wp (raise e) Q s.
Proof. done. Qed.

Lemma wp_log `{Logger S} (l : level) (msg : list piece) (Q : completion unit → S → Prop) s :
  Q (Normal tt) (logger_append (l, msg) s) → wp (log l msg) Q s.
Proof. done. Qed.

Lemma wp_mono {A} (m : M S A) (Q Q' : completion A → S → Prop) s :
  (∀ c s', Q c s' → Q' c s') → wp m Q s → wp m Q' s.
Proof. unfold wp. auto. Qed.

End Rules.

Lemma wp_await {A} (o : awaited A) (Q : completion A → task → Prop) (w : task) :
  match o with
  | Returns a => Q (Normal a) w
  | Throws e => Q (Abrupt (Exc e)) w
  | Cancelled =>
      Q (Abrupt CancelledError)
        (Task (current_partial w) (sent w) (logged w) (Some (length (sent w))))
  end →
  wp (await o) Q w.
Proof. unfold wp, await. by destruct o. Qed.

Lemma wp_send_str (m : message) (o : awaited unit) (Q : completion unit → task → Prop) (w : task) :
  wp (await o) Q (Task (current_partial w) (sent w ++ [m]) (logged w) (cancel_seen w)) →
  wp (send_str m o) Q w.
Proof. done. Qed.

Lemma wp_get_current_partial (Q : completion string → task → Prop) (w : task) :
  Q (Normal (current_partial w)) w → wp get_current_partial Q w.
Proof. done. Qed.

Lemma wp_set_current_partial (t : string) (Q : completion unit → task → Prop) (w : task) :
  Q (Normal tt) (Task t (sent w) (logged w) (cancel_seen w)) → wp (set_current_partial t) Q w.
Proof. done. Qed.

(** One step of symbolic execution. *)
Ltac wp_step :=
  first
    [ apply wp_bind
    | apply wp_try_except
    | apply wp_ret
    | apply wp_raise
    | apply wp_log
    | apply wp_send_str
    | apply wp_await
    | apply wp_get_current_partial
    | apply wp_set_current_partial ].

(** ** translate_text *)

(** [translate_text] returns, unless the task is cancelled while it waits; it
    sends nothing and leaves [current_partial] alone. *)
Lemma translate_text_cases (post : request → awaited response) (text target_lang : string) (w : task) :
  (∃ v lg, translate_text post text target_lang w
           = (Normal v, Task (current_partial w) (sent w) (logged w ++ lg) (cancel_seen w)))
  ∨ (post (translate_request text target_lang) = Cancelled
     ∧ translate_text post text target_lang w
       = (Abrupt CancelledError,
          Task (current_partial w) (sent w) (logged w) (Some (length (sent w))))).
Proof.
  destruct w as [cp tr lg cs].
  unfold translate_text, try_except, mbind, M_bind, bind, await, lift, log, mret, M_ret, ret.
  destruct (post (translate_request text target_lang)) as [r | e |]; simpl.
  - left. destruct (requests.status_code r =? 200)%Z.
    + destruct (translated_text_of r) as [v | e].
      * exists v, []. by rewrite app_nil_r.
      * destruct e; eexists _, _; unfold logger_append, task_logger; simpl;
          rewrite <- ?app_assoc; reflexivity.
    + eexists _, _. reflexivity.
  - left. destruct e; eexists _, _; unfold logger_append, task_logger; simpl;
      rewrite <- ?app_assoc; reflexivity.
  - right. done.
Qed.

Lemma wp_translate_text (post : request → awaited response) (text target_lang : string)
    (Q : completion pyval → task → Prop) (w : task) :
  (∀ v lg, translates target_lang text v →
           Q (Normal v) (Task (current_partial w) (sent w) (logged w ++ lg) (cancel_seen w))) →
  Q (Abrupt CancelledError)
    (Task (current_partial w) (sent w) (logged w) (Some (length (sent w)))) →
  wp (translate_text post text target_lang) Q w.
Proof.
  intros Hv Hc. unfold wp.
  destruct (translate_text_cases post text target_lang w) as [(v & lg & E) | [_ E]].
  - rewrite E. apply Hv. exists post, w. by rewrite E.
  - by rewrite E.
Qed.

(** ** process_audio *)

Ltac wp_run :=
  repeat (first [ apply wp_translate_text; [ intros ? ? ? | ]
                | wp_step
                | match goal with
                  | |- match ?o with Returns _ => _ | Throws _ => _ | Cancelled => _ end =>
                      destruct o
                  end ];
          cbv beta iota).

Ltac turn_leaf :=
  split;
  [ first
      [ exists []; split; [ cbn; by rewrite app_nil_r | by constructor ]
      | eexists [_]; split; [ cbn; reflexivity | by constructor ]
      | eexists [_; _]; split; [ cbn; by rewrite <- app_assoc | by constructor ] ]
  | cbn; try reflexivity ].

Lemma loop_body_spec (target_lang : string) (it : iteration) (w : task) :
  wp (loop_body target_lang it) (turn_spec target_lang w) w.
Proof.
  destruct w as [cp tr lg cs]. unfold loop_body. apply wp_try_except.
  destruct (queue_get it) as [data |]; [ destruct (AcceptWaveform it data) as [r | r | e] | ].
  - cbv zeta. case_bool_decide as Htext; wp_run; turn_leaf.
  - cbv zeta. apply wp_bind, wp_get_current_partial. cbn [current_partial].
    destruct (bool_decide (default EmptyString (r !! "partial") ≠ EmptyString)) eqn:Hne;
      [ destruct (bool_decide (default EmptyString (r !! "partial") ≠ cp)) eqn:Hcp | ];
      cbn [andb]; wp_run; try turn_leaf.
    all: apply bool_decide_eq_true in Hne, Hcp.
    all: split; [ eexists [_]; split; [ cbn; reflexivity | by constructor ] | cbn; try reflexivity ].
  - wp_run; turn_leaf.
  - wp_run; turn_leaf.
Qed.

Lemma blocks_one (target_lang cp cp' : string) (l : list message) :
  block target_lang cp l cp' → blocks target_lang cp l cp'.
Proof.
  intros Hb. rewrite <- (app_nil_l l). econstructor; [ constructor | done ].
Qed.

Lemma blocks_app (target_lang cp cp' cp'' : string) (l l' : list message) :
  blocks target_lang cp l cp' → blocks target_lang cp' l' cp'' →
  blocks target_lang cp (l ++ l') cp''.
Proof.
  intros Hl Hl'. induction Hl' as [ | cp1 l1 cp2 l2 cp3 _ IH Hb ].
  - by rewrite app_nil_r.
  - rewrite app_assoc. econstructor; eauto.
Qed.

Lemma while_loop_spec (target_lang : string) (its : list iteration) (w : task) :
  wp (while_loop target_lang its) (loop_spec target_lang w) w.
Proof.
  assert (Hstay : ∀ (p : progress) w0, loop_spec target_lang w0 (Normal p) w0).
  { intros p w0. split; [ | done ]. exists []. rewrite app_nil_r. split; [ done | constructor ]. }
  revert w. induction its as [ | it rest IH ]; intros w; [ apply wp_ret, Hstay | ].
  cbn [while_loop]. destruct (stop_is_set it); [ apply wp_ret, Hstay | ].
  apply wp_bind. eapply wp_mono; [ | apply loop_body_spec ].
  intros c w1 [(em & Hs & Hb) Hc]. destruct c as [ [] | e ].
  - eapply wp_mono; [ | apply IH ]. intros c' w2 [(em' & Hs' & Hb') Hc']. split.
    + exists (em ++ em'). rewrite Hs', Hs, app_assoc. split; [ done | ].
      eapply blocks_app; [ by apply blocks_one | done ].
    + cbn in Hc. unfold cancel_clause in *. destruct c' as [ | [ | ] ]; congruence.
  - split; [ | done ]. exists em. split; [ done | by apply blocks_one ].
Qed.

Lemma process_audio_spec (target_lang : string) (o : oracle) :
  wp (process_audio target_lang o) (session_spec target_lang) new_task.
Proof.
  unfold process_audio, new_task. apply wp_bind, wp_try_except, wp_bind.
  destruct (KaldiRecognizer o) as [e | ].
  { wp_run. split; [ left | ]; done. }
  wp_run; try (split; [ right; exists []; split; [ done | constructor ] | done ]).
  eapply wp_mono; [ | apply while_loop_spec ].
  intros c w' [(em & Hs & Hb) Hc]. cbn in Hs, Hb, Hc.
  assert (Htr : session_trace target_lang w') by (right; eauto).
  destruct c as [ [ | ] | [ e | ] ]; wp_run; cbn in *.
  all: split; [ | done ].
  all: destruct w'; cbn in *; right; exists em; done.
Qed.

Lemma run_task_spec (target_lang : string) (o : oracle) :
  session_trace target_lang (run_task target_lang o).2
  ∧ match (run_task target_lang o).1 with
    | Pending | Finished Returned => cancel_seen (run_task target_lang o).2 = None
    | Finished WasCancelled =>
        cancel_seen (run_task target_lang o).2
        = Some (length (sent (run_task target_lang o).2))
    | Finished (Raised _) => False
    end.
Proof.
  unfold run_task. destruct (cancelled_before_start o).
  { split; [ by left | done ]. }
  pose proof (process_audio_spec target_lang o) as H. unfold wp in H.
  destruct (process_audio target_lang o new_task) as [ [ [ | ] | [ e | ] ] w ]; cbn in *;
    destruct H; done.
Qed.

(** ** Traces made of blocks *)

Lemma partials_app (l l' : list message) : partials (l ++ l') = partials l ++ partials l'.
Proof.
  induction l as [ | [ | t [ | ] | v ] l IH ]; cbn; by rewrite ?IH.
Qed.

Lemma finals_app (l l' : list message) : finals (l ++ l') = finals l ++ finals l'.
Proof.
  induction l as [ | [ | t [ | ] | v ] l IH ]; cbn; by rewrite ?IH.
Qed.

Lemma no_repeat_snoc (l : list string) (t : string) :
  no_repeat (l ++ [t]) ↔ no_repeat l ∧ last l ≠ Some t.
Proof.
  induction l as [ | a [ | b l ] IH ]; cbn in *.
  - intuition congruence.
  - intuition congruence.
  - rewrite IH. intuition congruence.
Qed.

Lemma no_repeat_app_cons (l l' : list string) (t : string) :
  no_repeat (l ++ t :: l') → last l ≠ Some t.
Proof.
  induction l as [ | a [ | b l ] IH ]; cbn in *; intuition congruence.
Qed.

Lemma no_repeat_tail (a : string) (l : list string) : no_repeat (a :: l) → no_repeat l.
Proof. destruct l; cbn; intuition. Qed.

(** [current_partial] is the text of the last partial event sent, and no two
    partial events in a row carry the same text. *)
Lemma blocks_partials (target_lang cp cp' : string) (em : list message) :
  blocks target_lang cp em cp' →
  no_repeat (cp :: partials em) ∧ last (cp :: partials em) = Some cp'.
Proof.
  induction 1 as [ cp | cp l cp1 l' cp2 _ [IHn IHl] Hb ]; [ done | ].
  rewrite partials_app.
  destruct Hb as [ cp1 | cp1 t Ht Hne | cp1 t Ht | cp1 t v Ht Hv ]; cbn [partials];
    rewrite ?app_nil_r; try done.
  change (cp :: partials l ++ [t]) with ((cp :: partials l) ++ [t]).
  split; [ | by rewrite last_snoc ].
  apply no_repeat_snoc. split; [ done | ]. rewrite IHl. congruence.
Qed.

Lemma blocks_Forall (target_lang : string) (P : message → Prop) (cp cp' : string)
    (em : list message) :
  (∀ c l c', block target_lang c l c' → Forall P l) →
  blocks target_lang cp em cp' → Forall P em.
Proof.
  intros HP. induction 1; [ constructor | ]. apply Forall_app. eauto.
Qed.

(** A translation comes right after the final transcription of its text. *)
Lemma blocks_translation (target_lang cp cp' : string) (em : list message) :
  blocks target_lang cp em cp' →
  ∀ i v, em !! i = Some (translation v) →
         ∃ j text, i = S j ∧ em !! j = Some (transcription text false)
                   ∧ text ≠ EmptyString ∧ translates target_lang text v.
Proof.
  induction 1 as [ cp | cp l cp1 l' cp2 _ IH Hb ]; intros i v Hi; [ done | ].
  apply lookup_app_Some in Hi as [ Hi | [Hlen Hi] ].
  - destruct (IH i v Hi) as (j & t & -> & Hj & Ht & Hv).
    exists j, t. split_and!; try done. by apply lookup_app_l_Some.
  - destruct Hb as [ cp1 | cp1 t Ht Hne | cp1 t Ht | cp1 t v' Ht Hv ].
    + done.
    + destruct (i - length l) as [ | [ | n ] ]; done.
    + destruct (i - length l) as [ | [ | n ] ]; done.
    + destruct (i - length l) as [ | [ | n ] ] eqn:E; try done.
      cbn in Hi. injection Hi as ->.
      exists (length l), t. split_and!; try done; [ lia | ].
      rewrite lookup_app_r; [ | lia ]. by rewrite Nat.sub_diag.
Qed.

(** * The claims *)

(** ** translate_text *)

Example translate_text_success :
  (translate_text (λ _, Returns fr_ok) "hello" "fr" new_task).1 = Normal (PyStr "bonjour").
Proof. reflexivity. Qed.

(** C1. Whatever the text and the target language: when the awaited HTTP
    call runs past its five seconds ([asyncio.TimeoutError]), answers with a
    status other than 200, or raises an exception, [translate_text] returns
    the text it was given, and so raises nothing to its caller. *)
Theorem translate_text_falls_back
    (post : request → awaited response) (text target_lang : string) (w : task) :
  (post (translate_request text target_lang) = Throws TimeoutError
   ∨ (∃ r, post (translate_request text target_lang) = Returns r
           ∧ requests.status_code r ≠ 200%Z)
   ∨ (∃ e, post (translate_request text target_lang) = Throws e)) →
  (translate_text post text target_lang w).1 = Normal (PyStr text).
Proof.
  intros H. unfold translate_text, try_except, mbind, M_bind, bind.
  destruct H as [ H | [ (r & H & Hr) | (e & H) ] ]; rewrite H; cbn.
  - reflexivity.
  - apply Z.eqb_neq in Hr. by rewrite Hr.
  - by destruct e.
Qed.

Lemma translate_text_falls_back_witness :
  (translate_text (λ _, Throws TimeoutError) "test" "fr" new_task).1 = Normal (PyStr "test")
  ∧ (translate_text (λ _, Returns (Response 503 "busy" (Raise JSONDecodeError))) "test" "fr"
                    new_task).1 = Normal (PyStr "test").
Proof.
  split.
  - apply translate_text_falls_back. left. reflexivity.
  - apply translate_text_falls_back. right. left. eexists. split; [ reflexivity | ]. cbn. lia.
Defined.

(** C10. When the call answers 200 and taking the translated text out of
    the body raises, [translate_text] still returns the text it was given. *)
Theorem translate_text_bad_body
    (post : request → awaited response) (text target_lang : string) (w : task)
    (r : response) (e : exception) :
  post (translate_request text target_lang) = Returns r →
  requests.status_code r = 200%Z →
  translated_text_of r = Raise e →
  (translate_text post text target_lang w).1 = Normal (PyStr text).
Proof.
  intros Hpost Hstatus Hbody.
  unfold translate_text, try_except, mbind, M_bind, bind.
  rewrite Hpost. cbn. rewrite Hstatus. cbn. rewrite Hbody. cbn. by destruct e.
Qed.

Lemma translate_text_bad_body_witness :
  translated_text_of (Response 200 "[]" (Ok (PyList []))) = Raise IndexError
  ∧ (translate_text (λ _, Returns (Response 200 "[]" (Ok (PyList [])))) "test" "fr"
                    new_task).1 = Normal (PyStr "test").
Proof.
  split; [ reflexivity | ].
  by apply (translate_text_bad_body _ "test" "fr" new_task
              (Response 200 "[]" (Ok (PyList []))) IndexError).
Defined.

(** ** process_audio *)

Example session_hello :
  sent (run_task "fr" (listens [heard (partial_of "hello");
                                heard (partial_of "hello");
                                heard (final_of "hello world")])).2
  = [listening_started; transcription "hello" true;
     transcription "hello world" false; translation (PyStr "hello world")].
Proof. reflexivity. Qed.

(** The translation service times out on the text test: the client still
    receives the translation event, carrying test. *)
Example session_timeout :
  sent (run_task "fr" (listens [heard (final_of "test")])).2
  = [listening_started; transcription "test" false; translation (PyStr "test")].
Proof. reflexivity. Qed.

(** C2, as the code has it.  On a final result with non-empty text the turn
    sends the final transcription event exactly once, followed by nothing or
    by the translation of that text, and it leaves [current_partial] as it
    was. *)
Theorem final_result_sends_once
    (target_lang : string) (it : iteration) (w : task)
    (data : list Byte.byte) (r : gmap string string) :
  queue_get it = Some data →
  AcceptWaveform it data = Final r →
  default EmptyString (r !! "text") ≠ EmptyString →
  let text := default EmptyString (r !! "text") in
  let w' := (loop_body target_lang it w).2 in
  finals (sent w') = finals (sent w) ++ [text]
  ∧ (∃ rest, sent w' = sent w ++ transcription text false :: rest
             ∧ (rest = [] ∨ ∃ v, rest = [translation v] ∧ translates target_lang text v))
  ∧ current_partial w' = current_partial w.
Proof.
  intros Hq Ha Ht text w'. subst w'.
  change (wp (loop_body target_lang it)
            (λ _ w', finals (sent w') = finals (sent w) ++ [text]
                     ∧ (∃ rest, sent w' = sent w ++ transcription text false :: rest
                                ∧ (rest = [] ∨ ∃ v, rest = [translation v]
                                                    ∧ translates target_lang text v))
                     ∧ current_partial w' = current_partial w) w).
  destruct w as [cp tr lg cs]. unfold loop_body. rewrite Hq, Ha. cbv zeta.
  rewrite bool_decide_eq_true_2 by done. fold text.
  apply wp_try_except. wp_run; cbn; rewrite ?finals_app; cbn; rewrite ?app_nil_r.
  all: split_and!; try done.
  all: first [ exists []; split; [ done | by left ]
             | eexists [_]; split; [ by rewrite <- app_assoc | right; eauto ] ].
Qed.

Lemma final_result_sends_once_witness :
  let w := Task "hello" [listening_started; transcription "hello" true] [] None in
  let w' := (loop_body "fr" (heard (final_of "hello")) w).2 in
  finals (sent w') = finals (sent w) ++ ["hello"]
  ∧ (∃ rest, sent w' = sent w ++ transcription "hello" false :: rest
             ∧ (rest = [] ∨ ∃ v, rest = [translation v] ∧ translates "fr" "hello" v))
  ∧ current_partial w' = current_partial w.
Proof.
  exact (final_result_sends_once "fr" (heard (final_of "hello"))
           (Task "hello" [listening_started; transcription "hello" true] [] None)
           [] {[ "text" := "hello" ]} eq_refl eq_refl
           ltac:(vm_compute; discriminate)).
Defined.

(** C2, as stated, fails: after the partial hypothesis hello and the final
    result hello, [current_partial] is still hello, not empty, and the same
    hypothesis at the start of the next utterance is not sent. *)
Lemma final_result_keeps_current_partial :
  let utterance := [heard (partial_of "hello"); heard (final_of "hello")] in
  let w := (run_task "fr" (listens utterance)).2 in
  sent w = [listening_started; transcription "hello" true;
            transcription "hello" false; translation (PyStr "hello")]
  ∧ current_partial w = "hello"
  ∧ current_partial w ≠ EmptyString
  ∧ sent (run_task "fr" (listens (utterance ++ [heard (partial_of "hello")]))).2 = sent w.
Proof. split_and!; [ reflexivity | reflexivity | discriminate | reflexivity ]. Qed.

(** C3. In the trace of any task, a partial transcription event never
    carries the text of the partial event sent before it: no two partial
    events in a row are equal. *)
Theorem partial_events_differ (target_lang : string) (o : oracle) :
  let tr := sent (run_task target_lang o).2 in
  (∀ pre text post, tr = pre ++ transcription text true :: post →
                    last (partials pre) ≠ Some text)
  ∧ no_repeat (partials tr).
Proof.
  intros tr.
  assert (Hn : no_repeat (partials tr)).
  { destruct (run_task_spec target_lang o) as [ [ [Hs _] | (em & Hs & Hb) ] _ ];
      subst tr; rewrite Hs; [ done | ].
    apply blocks_partials in Hb as [Hn _]. by apply no_repeat_tail in Hn. }
  split; [ | done ]. intros pre text post E. rewrite E, partials_app in Hn.
  by apply no_repeat_app_cons in Hn.
Qed.

Lemma partial_events_differ_witness :
  let tr := sent (run_task "fr" (listens [heard (partial_of "hello");
                                          heard (partial_of "hello");
                                          heard (partial_of "hello world")])).2 in
  tr = [listening_started; transcription "hello" true; transcription "hello world" true]
  ∧ last (partials [listening_started; transcription "hello" true]) ≠ Some "hello world"
  ∧ no_repeat (partials tr).
Proof.
  pose proof (partial_events_differ "fr"
                (listens [heard (partial_of "hello"); heard (partial_of "hello");
                          heard (partial_of "hello world")])) as [Hlast Hn].
  split_and!; [ reflexivity | | exact Hn ].
  exact (Hlast [listening_started; transcription "hello" true] "hello world" [] eq_refl).
Defined.

(** C5. In the trace of any task, every translation event comes right
    after the final transcription event of the text it translates. *)
Theorem translation_follows_transcription
    (target_lang : string) (o : oracle) (i : nat) (v : pyval) :
  sent (run_task target_lang o).2 !! i = Some (translation v) →
  ∃ j text, i = S j
            ∧ sent (run_task target_lang o).2 !! j = Some (transcription text false)
            ∧ text ≠ EmptyString
            ∧ translates target_lang text v.
Proof.
  destruct (run_task_spec target_lang o) as [ [ [Hs _] | (em & Hs & Hb) ] _ ];
    rewrite Hs; [ done | ].
  destruct i as [ | i ]; [ done | ]. cbn. intros Hi.
  destruct (blocks_translation _ _ _ _ Hb i v Hi) as (j & text & -> & Hj & Ht & Hv).
  exists (S j), text. done.
Qed.

Lemma translation_follows_transcription_witness :
  ∃ j text, 3 = S j
            ∧ sent (run_task "fr" (listens [heard (partial_of "hello");
                                            heard (final_of "hello world")])).2 !! j
              = Some (transcription text false)
            ∧ text ≠ EmptyString
            ∧ translates "fr" text (PyStr "hello world").
Proof.
  exact (translation_follows_transcription "fr"
           (listens [heard (partial_of "hello"); heard (final_of "hello world")])
           3 (PyStr "hello world") eq_refl).
Defined.

(** C6. A turn in which the text taken from the recognizer's result is the
    empty string, final or partial, sends nothing; and no transcription
    event in the trace of a task carries the empty string. *)
Theorem empty_text_is_not_sent (target_lang : string) :
  (∀ (it : iteration) (w : task) (data : list Byte.byte) (r : gmap string string),
     queue_get it = Some data →
     (AcceptWaveform it data = Final r ∧ default EmptyString (r !! "text") = EmptyString)
     ∨ (AcceptWaveform it data = Partial r
        ∧ default EmptyString (r !! "partial") = EmptyString) →
     sent (loop_body target_lang it w).2 = sent w)
  ∧ (∀ (o : oracle) (text : string) (partial : bool),
       transcription text partial ∈ sent (run_task target_lang o).2 → text ≠ EmptyString).
Proof.
  split.
  - intros it w data r Hq Hr.
    change (wp (loop_body target_lang it) (λ _ w', sent w' = sent w) w).
    unfold loop_body. rewrite Hq. apply wp_try_except.
    destruct Hr as [ [-> E] | [-> E] ]; cbv zeta; rewrite E.
    + rewrite bool_decide_eq_false_2 by (intros H; by apply H). by wp_run.
    + apply wp_bind, wp_get_current_partial.
      rewrite bool_decide_eq_false_2 by (intros H; by apply H). by wp_run.
  - intros o text partial Hin.
    destruct (run_task_spec target_lang o) as [ [ [Hs _] | (em & Hs & Hb) ] _ ];
      rewrite Hs in Hin; [ by apply elem_of_nil in Hin | ].
    apply elem_of_cons in Hin as [ Hin | Hin ]; [ done | ].
    assert (HF : Forall (λ m, ∀ t p, m = transcription t p → t ≠ EmptyString) em).
    { eapply blocks_Forall; [ | exact Hb ].
      intros c l c' [ ]; repeat constructor; congruence. }
    rewrite Forall_forall in HF. by eapply HF.
Qed.

Lemma empty_text_is_not_sent_witness :
  sent (loop_body "fr" (heard (final_of EmptyString)) new_task).2 = sent new_task
  ∧ sent (loop_body "fr" (heard (partial_of EmptyString)) new_task).2 = sent new_task
  ∧ "hello" ≠ EmptyString.
Proof.
  destruct (empty_text_is_not_sent "fr") as [Hturn Htrace].
  split_and!.
  - apply (Hturn (heard (final_of EmptyString)) new_task [] {[ "text" := EmptyString ]});
      [ reflexivity | left; split; reflexivity ].
  - apply (Hturn (heard (partial_of EmptyString)) new_task [] {[ "partial" := EmptyString ]});
      [ reflexivity | right; split; reflexivity ].
  - apply (Htrace (listens [heard (partial_of "hello")]) "hello" true).
    apply elem_of_cons. right. apply elem_of_cons. by left.
Defined.

(** C9. In the trace of any task, a transcription or translation event is
    never the first message: the first message is [listening_started]. *)
Theorem listening_started_first
    (target_lang : string) (o : oracle) (i : nat) (m : message) :
  sent (run_task target_lang o).2 !! i = Some m →
  is_text_event m = true →
  sent (run_task target_lang o).2 !! 0 = Some listening_started ∧ 0 < i.
Proof.
  destruct (run_task_spec target_lang o) as [ [ [Hs _] | (em & Hs & Hb) ] _ ];
    rewrite Hs; [ done | ].
  intros Hi Hm. split; [ done | ]. destruct i; [ | lia ].
  cbn in Hi. injection Hi as <-. done.
Qed.

Lemma listening_started_first_witness :
  sent (run_task "fr" (listens [heard (final_of "hello world")])).2 !! 0
  = Some listening_started ∧ 0 < 2.
Proof.
  exact (listening_started_first "fr" (listens [heard (final_of "hello world")])
           2 (translation (PyStr "hello world")) eq_refl eq_refl).
Defined.

(** ** The registry and the capture device *)

Ltac unfold_server :=
  unfold open_connection, close_connection, capture_start, capture_poll, on_shutdown,
    add, remove, len, should_stop_set, should_stop_is_set, create_capture_task,
    set_capture, log, mbind, M_bind, bind, mret, M_ret, ret, logger_append, server_logger;
  cbn.

Lemma step_connect (s s' : server) (ws : nat) (target_lang : string) :
  step s (Connect ws target_lang) = Some s' →
(ws ∉ active_connections s)
  ∧ active_connections s' = {[ws]} ∪ active_connections s
  ∧ size (active_connections s') = S (size (active_connections s))
  ∧ (if decide (size (active_connections s) = 0)
     then should_stop s' = false ∧ captures s' = captures s ++ [Created]
     else should_stop s' = should_stop s ∧ captures s' = captures s).
Proof.
  cbn [step]. case_bool_decide as Hin; [ done | ].
  assert (Hsize : size ({[ws]} ∪ active_connections s) = S (size (active_connections s))).
  { rewrite size_union by set_solver. by rewrite size_singleton. }
  unfold_server. rewrite Hsize.
  destruct (size (active_connections s)) as [ | n ] eqn:E; cbn;
    intros [= <-]; cbn; split_and!; try done.
Qed.

Lemma step_disconnect (s s' : server) (ws : nat) :
  step s (Disconnect ws) = Some s' →
(ws ∈ active_connections s)
  ∧ active_connections s' = active_connections s ∖ {[ws]}
  ∧ S (size (active_connections s')) = size (active_connections s)
  ∧ captures s' = captures s
  ∧ (if decide (size (active_connections s) = 1)
     then should_stop s' = true
     else should_stop s' = should_stop s).
Proof.
  cbn [step]. unfold_server. case_bool_decide as Hin; [ | done ]. cbn.
  assert (Hsize : S (size (active_connections s ∖ {[ws]})) = size (active_connections s)).
  { rewrite size_difference by set_solver. rewrite size_singleton.
    assert (size (active_connections s) ≠ 0); [ | lia ].
    intros H0. apply size_empty_inv in H0. set_solver. }
  destruct (size (active_connections s ∖ {[ws]})) as [ | n ] eqn:E; cbn;
    intros [= <-]; cbn; split_and!; try done; try lia; case_decide; try done; lia.
Qed.

Lemma step_start (s s' : server) (i : nat) (device : option exception) :
  step s (Start i device) = Some s' →
  captures s !! i = Some Created
  ∧ active_connections s' = active_connections s
  ∧ should_stop s' = should_stop s
  ∧ captures s' = <[i := match device with
                         | Some e => Broken e
                         | None => if should_stop s then Closed else Open
                         end]> (captures s).
Proof.
  cbn [step]. destruct (captures s !! i) as [ [ | | | ] | ]; try done.
  unfold_server. destruct device as [ [ ] | ]; cbn; try (intros [= <-]; done).
  destruct (should_stop s) eqn:E; cbn; intros [= <-]; cbn; done.
Qed.

Lemma step_poll (s s' : server) (i : nat) :
  step s (Poll i) = Some s' →
  captures s !! i = Some Open
  ∧ active_connections s' = active_connections s
  ∧ should_stop s' = should_stop s
  ∧ captures s' = if should_stop s then <[i := Closed]> (captures s) else captures s.
Proof.
  cbn [step]. destruct (captures s !! i) as [ [ | | | ] | ]; try done.
  unfold_server. destruct (should_stop s) eqn:E; cbn; intros [= <-]; cbn; done.
Qed.

Lemma step_shutdown (s s' : server) :
  step s Shutdown = Some s' →
  active_connections s' = active_connections s
  ∧ should_stop s' = true
  ∧ captures s' = captures s.
Proof. cbn [step]. unfold_server. intros [= <-]. done. Qed.

Lemma step_idle_inv (s s' : server) (ev : event) :
  idle_inv s → step s ev = Some s' → idle_inv s'.
Proof.
  unfold idle_inv. intros Hinv Hstep Hsize. destruct ev as [ ws lang | ws | i device | i | ].
  - apply step_connect in Hstep as (_ & _ & Hs & _). lia.
  - apply step_disconnect in Hstep as (_ & _ & Hs & _ & Hstop).
    left. case_decide; [ done | lia ].
  - apply step_start in Hstep as (Hi & Ha & Hstop & Hc). rewrite Ha in Hsize.
    destruct (Hinv Hsize) as [ H | H ]; [ left; congruence | ]. by rewrite H in Hi.
  - apply step_poll in Hstep as (Hi & Ha & Hstop & Hc). rewrite Ha in Hsize.
    destruct (Hinv Hsize) as [ H | H ]; [ left; congruence | ]. by rewrite H in Hi.
  - apply step_shutdown in Hstep as (_ & Hstop & _). by left.
Qed.

Lemma run_idle_inv (evs : list event) (s s' : server) :
  idle_inv s → run s evs = Some s' → idle_inv s'.
Proof.
  revert s. induction evs as [ | ev evs IH ]; intros s Hinv; cbn.
  - by intros [= <-].
  - destruct (step s ev) as [ s1 | ] eqn:E; [ | done ].
    apply IH. by eapply step_idle_inv.
Qed.

Lemma step_under_stop (s s' : server) (ev : event) :
  should_stop s = true → is_connect ev = false → step s ev = Some s' →
  should_stop s' = true
  ∧ ∀ i, captures s' !! i = Some Open → captures s !! i = Some Open.
Proof.
  intros Hstop Hev Hstep. destruct ev as [ ws lang | ws | j device | j | ]; [ done | | | | ].
  - apply step_disconnect in Hstep as (_ & _ & _ & -> & H).
    split; [ | done ]. case_decide; congruence.
  - apply step_start in Hstep as (Hj & _ & Hs & ->). split; [ congruence | ].
    intros i Hi. destruct (decide (j = i)) as [ <- | Hne ].
    + rewrite list_lookup_insert_eq in Hi by (by eapply lookup_lt_Some).
      rewrite Hstop in Hi. by destruct device.
    + by rewrite list_lookup_insert_ne in Hi.
  - apply step_poll in Hstep as (Hj & _ & Hs & ->). split; [ congruence | ].
    rewrite Hstop. intros i Hi. destruct (decide (j = i)) as [ <- | Hne ].
    + rewrite list_lookup_insert_eq in Hi by (by eapply lookup_lt_Some). done.
    + by rewrite list_lookup_insert_ne in Hi.
  - apply step_shutdown in Hstep as (_ & Hs & ->). done.
Qed.

(** Without a new connection a set stop signal stays set, and no stream
    opens. *)
Lemma run_under_stop (evs : list event) (s s' : server) :
  should_stop s = true →
  Forall (λ ev, is_connect ev = false) evs →
  run s evs = Some s' →
  should_stop s' = true
  ∧ ∀ i, captures s' !! i = Some Open → captures s !! i = Some Open.
Proof.
  intros Hstop Hevs. revert s Hstop.
  induction Hevs as [ | ev evs Hev _ IH ]; intros s Hstop; cbn [run].
  - by intros [= <-].
  - destruct (step s ev) as [ s1 | ] eqn:E; [ | done ]. intros Hrun.
    destruct (step_under_stop s s1 ev Hstop Hev E) as [Hstop1 Hopen1].
    destruct (IH s1 Hstop1 Hrun) as [Hstop' Hopen']. split; [ done | ].
    intros i Hi. auto.
Qed.

(** Without a new connection no capture task is created. *)
Lemma run_without_captures (evs : list event) (s s' : server) :
  captures s = [] →
  Forall (λ ev, is_connect ev = false) evs →
  run s evs = Some s' →
  captures s' = [].
Proof.
  intros Hc Hevs. revert s Hc.
  induction Hevs as [ | ev evs Hev _ IH ]; intros s Hc; cbn [run].
  - by intros [= <-].
  - destruct (step s ev) as [ s1 | ] eqn:E; [ | done ]. apply IH.
    destruct ev as [ ws lang | ws | j device | j | ]; [ done | | | | ].
    + apply step_disconnect in E as (_ & _ & _ & -> & _). done.
    + apply step_start in E as (Hj & _). by rewrite Hc in Hj.
    + apply step_poll in E as (Hj & _). by rewrite Hc in Hj.
    + apply step_shutdown in E as (_ & _ & ->). done.
Qed.

(** C4, as the code has it.  In every reachable state: a connection that
    finds the registry empty clears the stop signal and creates a capture
    task, and no other connection does; the disconnection that empties the
    registry sets the stop signal, and no other disconnection touches it;
    neither opens nor closes a stream by itself.  The stream opens when the
    capture task first runs and finds the stop signal clear; a poll that
    finds the signal set closes it.  With nobody connected, a stream that is
    still open has the stop signal set, and as long as no new connection
    comes, whatever else happens, its next poll closes it. *)
Theorem capture_follows_registry (evs : list event) (s : server) :
  run initial evs = Some s →
  (∀ ws target_lang s', step s (Connect ws target_lang) = Some s' →
     if decide (size (active_connections s) = 0)
     then should_stop s' = false ∧ captures s' = captures s ++ [Created]
     else should_stop s' = should_stop s ∧ captures s' = captures s)
  ∧ (∀ ws s', step s (Disconnect ws) = Some s' →
       captures s' = captures s
       ∧ (if decide (size (active_connections s) = 1)
          then should_stop s' = true
          else should_stop s' = should_stop s))
  ∧ (∀ i s', step s (Start i None) = Some s' →
       captures s' !! i = Some (if should_stop s then Closed else Open))
  ∧ (size (active_connections s) = 0 → running s = true → should_stop s = true)
  ∧ (∀ i s', should_stop s = true → step s (Poll i) = Some s' →
       captures s' !! i = Some Closed)
  ∧ (∀ later s1 i s2,
       size (active_connections s) = 0 →
       Forall (λ ev, is_connect ev = false) later →
       run s later = Some s1 →
       step s1 (Poll i) = Some s2 →
       captures s2 !! i = Some Closed).
Proof.
  intros Hrun.
  assert (Hinv : idle_inv s).
  { eapply run_idle_inv; [ | exact Hrun ]. intros _. by right. }
  split_and!.
  - intros ws lang s' Hstep. by apply step_connect in Hstep as (_ & _ & _ & H).
  - intros ws s' Hstep. by apply step_disconnect in Hstep as (_ & _ & _ & Hc & H).
  - intros i s' Hstep. apply step_start in Hstep as (Hi & _ & _ & Hc).
    rewrite Hc. apply list_lookup_insert_eq. by eapply lookup_lt_Some.
  - intros Hsize Hopen.
    destruct (Hinv Hsize) as [ H | H ]; [ done | ].
    unfold running in Hopen. by rewrite H in Hopen.
  - intros i s' Hstop Hstep. apply step_poll in Hstep as (Hi & _ & _ & Hc).
    rewrite Hc, Hstop. apply list_lookup_insert_eq. by eapply lookup_lt_Some.
  - intros later s1 i s2 Hsize Hlater Hrun1 Hstep.
    apply step_poll in Hstep as (Hi & _ & _ & Hc).
    destruct (Hinv Hsize) as [ Hstop | Hnone ].
    + destruct (run_under_stop later s s1 Hstop Hlater Hrun1) as [Hstop1 _].
      rewrite Hc, Hstop1. apply list_lookup_insert_eq. by eapply lookup_lt_Some.
    + rewrite (run_without_captures later s s1 Hnone Hlater Hrun1) in Hi. done.
Qed.

Lemma capture_follows_registry_witness :
  ∃ s s1 s2,
    run initial [Connect 1 "fr"; Start 0 None; Disconnect 1] = Some s
    ∧ size (active_connections s) = 0
    ∧ run s [Shutdown] = Some s1
    ∧ step s1 (Poll 0) = Some s2
    ∧ captures s2 !! 0 = Some Closed.
Proof.
  destruct (run initial [Connect 1 "fr"; Start 0 None; Disconnect 1]) as [ s | ] eqn:E;
    [ | by vm_compute in E ].
  destruct (run s [Shutdown]) as [ s1 | ] eqn:E1;
    [ | exfalso; vm_compute in E; injection E as <-; by vm_compute in E1 ].
  destruct (step s1 (Poll 0)) as [ s2 | ] eqn:E2;
    [ | exfalso; vm_compute in E; injection E as <-;
        vm_compute in E1; injection E1 as <-; by vm_compute in E2 ].
  assert (Hsize : size (active_connections s) = 0).
  { pose proof E as E'. vm_compute in E'. injection E' as <-. reflexivity. }
  destruct (capture_follows_registry _ s E) as (_ & _ & _ & _ & _ & Hlater).
  exists s, s1, s2. split_and!; try done.
  apply (Hlater [Shutdown] s1 0 s2 Hsize); [ repeat constructor | done | done ].
Defined.

(** C4, as stated, fails: one client connects, the capture task opens the
    stream, the client disconnects.  The registry is empty and the stream is
    still open, until the task wakes up and sees the stop signal. *)
Lemma stream_open_with_no_connection :
  ∃ s, run initial [Connect 1 "fr"; Start 0 None; Disconnect 1] = Some s
       ∧ size (active_connections s) = 0
       ∧ running s = true
       ∧ should_stop s = true.
Proof.
  eexists. split; [ vm_compute; reflexivity | ]. split_and!; reflexivity.
Qed.

Example burst_opens_two_streams :
  ∃ s, run initial [Connect 1 "fr"; Start 0 None; Disconnect 1;
                    Connect 2 "fr"; Poll 0; Start 1 None] = Some s
       ∧ captures s = [Open; Open]
       ∧ size (active_connections s) = 1.
Proof. eexists. split; [ vm_compute; reflexivity | ]. split; reflexivity. Qed.

(** ** websocket_handler *)

Lemma eq_str_true (v : pyval) (t : string) : eq_str v t = true ↔ v = PyStr t.
Proof.
  destruct v; cbn; try (split; [ discriminate | congruence ]).
  rewrite String.eqb_eq. split; congruence.
Qed.

Lemma command_is_stop (d : list (string * pyval)) :
  eq_str (default PyNone (dict_get d "command")) "stop" = true
  ↔ dict_get d "command" = Some (PyStr "stop").
Proof.
  rewrite eq_str_true. destruct (dict_get d "command") as [ v | ]; cbn;
    split; congruence.
Qed.

Ltac unfold_handler :=
  unfold on_message, try_except_only, lift, get, log, mbind, M_bind, bind, mret, M_ret, ret,
    logger_append, server_logger;
  cbn.

(** The message loop only writes to the log. *)
Lemma on_message_frame (json_loads : string → result pyval) (msg : WSMessage) (s : server) :
  ∃ lg, (on_message json_loads msg s).2 = logging s lg.
Proof.
  assert (Hsame : s = logging s []).
  { destruct s. unfold logging. cbn. by rewrite app_nil_r. }
  unfold logging in *. unfold_handler. destruct (type msg); cbn; try (by exists []).
  - destruct (json_loads (data msg)) as [ v | e ]; cbn.
    + destruct v; cbn; try (by eexists [_]).
      destruct (eq_str _ _); by eexists [_].
    + destruct e; cbn; try (by eexists [_]).
      eexists [_; _]. by rewrite <- app_assoc.
  - by eexists [_].
Qed.

Lemma receive_loop_frame (json_loads : string → result pyval) (msgs : list WSMessage)
    (s : server) :
  ∃ lg, (receive_loop json_loads msgs s).2 = logging s lg.
Proof.
  assert (Hsame : ∀ s0, s0 = logging s0 []).
  { intros [ ]. unfold logging. cbn. by rewrite app_nil_r. }
  revert s. induction msgs as [ | msg rest IH ]; intros s; [ by exists [] | ].
  cbn [receive_loop]. destruct (closes (type msg)); [ by exists [] | ].
  unfold mbind, M_bind, bind.
  destruct (on_message_frame json_loads msg s) as [lg Hlg].
  destruct (on_message json_loads msg s) as [ [ [ | ] | e ] s1 ]; cbn in Hlg; subst s1.
  - destruct (IH (logging s lg)) as [lg' Hlg']. exists (lg ++ lg').
    rewrite Hlg'. unfold logging. cbn. by rewrite app_assoc.
  - by exists lg.
  - by exists lg.
Qed.

(** C7, as the code has it.  A text message that is not valid JSON is
    logged twice (as received, as invalid) and the loop goes on to the next
    message with the registry untouched.  Among the text messages that parse
    to a JSON object, exactly those whose command is stop end the loop.  A
    message of type ERROR ends it too, and so does a close message. *)
Theorem invalid_json_is_ignored
    (json_loads : string → result pyval) (msg : WSMessage) (rest : list WSMessage)
    (s : server) :
  (type msg = WSMsgType.TEXT → json_loads (data msg) = Raise JSONDecodeError →
     let s' := logging s [(INFO, [Lit "Received WebSocket message: "; Str (data msg)]);
                          (WARNING, [Lit "Received invalid JSON: "; Str (data msg)])] in
     on_message json_loads msg s = (Normal Continue, s')
     ∧ receive_loop json_loads (msg :: rest) s = receive_loop json_loads rest s')
  ∧ (∀ d, type msg = WSMsgType.TEXT → json_loads (data msg) = Ok (PyDict d) →
       ((on_message json_loads msg s).1 = Normal Break
        ↔ dict_get d "command" = Some (PyStr "stop"))
       ∧ ((on_message json_loads msg s).1 = Normal Continue
          ↔ dict_get d "command" ≠ Some (PyStr "stop")))
  ∧ (type msg = WSMsgType.ERROR →
       (on_message json_loads msg s).1 = Normal Break
       ∧ (receive_loop json_loads (msg :: rest) s).1 = Normal tt
       ∧ (receive_loop json_loads (msg :: rest) s).2 = (on_message json_loads msg s).2)
  ∧ (closes (type msg) = true → receive_loop json_loads (msg :: rest) s = (Normal tt, s)).
Proof.
  split_and!.
  - intros Ht Hj s'.
    assert (E : on_message json_loads msg s = (Normal Continue, s')).
    { subst s'. unfold logging. unfold_handler. rewrite Ht, Hj. cbn.
      by rewrite <- app_assoc. }
    split; [ done | ]. cbn [receive_loop]. rewrite Ht. cbn [closes].
    unfold mbind, M_bind, bind. by rewrite E.
  - intros d Ht Hj. rewrite <- command_is_stop.
    unfold_handler. rewrite Ht, Hj. cbn.
    destruct (eq_str _ _); cbn; split; split; congruence.
  - intros Ht. cbn [receive_loop]. rewrite Ht. cbn [closes].
    unfold_handler. rewrite Ht. done.
  - intros Hc. cbn [receive_loop]. by rewrite Hc.
Qed.

Lemma invalid_json_is_ignored_witness :
  let json_loads := λ _ : string, @Raise pyval JSONDecodeError in
  let msg := WSMsg WSMsgType.TEXT "not json" in
  let s' := logging initial [(INFO, [Lit "Received WebSocket message: "; Str "not json"]);
                             (WARNING, [Lit "Received invalid JSON: "; Str "not json"])] in
  on_message json_loads msg initial = (Normal Continue, s')
  ∧ receive_loop json_loads [msg; msg] initial = receive_loop json_loads [msg] s'.
Proof.
  exact (proj1 (invalid_json_is_ignored (λ _, Raise JSONDecodeError)
                  (WSMsg WSMsgType.TEXT "not json") [WSMsg WSMsgType.TEXT "not json"]
                  initial) eq_refl eq_refl).
Defined.

(** C7, as stated, fails: a message of type ERROR ends the loop although
    nothing was parsed, and the message after it is never read. *)
Lemma error_message_ends_loop :
  let json_loads := λ _ : string, @Raise pyval JSONDecodeError in
  let msg := WSMsg WSMsgType.ERROR EmptyString in
  (on_message json_loads msg initial).1 = Normal Break
  ∧ receive_loop json_loads [msg; WSMsg WSMsgType.TEXT "unread"] initial
    = (Normal tt, logging initial [(ERROR, [Lit "WebSocket error: "; WsException])]).
Proof. split; reflexivity. Qed.

(** A text message that is valid JSON but not an object: [data.get] raises
    AttributeError, which no [except] of the handler catches. *)
Example json_array_raises :
  let json_loads := λ _ : string, Ok (PyList []) in
  (on_message json_loads (WSMsg WSMsgType.TEXT "[]") initial).1 = Abrupt (Exc AttributeError)
  ∧ (serve json_loads 1 [WSMsg WSMsgType.TEXT "[]"] WasCancelled
       (Server {[1]} false [Open] [])).1 = Abrupt (Exc AttributeError).
Proof. split; reflexivity. Qed.

(** ** Stopping a session *)

Lemma receive_loop_pass (json_loads : string → result pyval) (msg : WSMessage)
    (rest : list WSMessage) (s : server) :
  passes json_loads msg →
  receive_loop json_loads (msg :: rest) s
  = receive_loop json_loads rest (on_message json_loads msg s).2.
Proof.
  intros [Hc Hm]. cbn [receive_loop]. rewrite Hc. unfold mbind, M_bind, bind.
  specialize (Hm s). destruct (on_message json_loads msg s) as [ c s1 ].
  cbn in Hm. by subst c.
Qed.

Lemma close_connection_ok (ws : nat) (s : server) :
  ws ∈ active_connections s →
  ∃ s', close_connection ws s = (Normal tt, s') ∧ step s (Disconnect ws) = Some s'.
Proof.
  intros Hin. cbn [step]. unfold_server. rewrite bool_decide_eq_true_2 by done. cbn.
  destruct (size (active_connections s ∖ {[ws]})); cbn; eauto.
Qed.

Lemma silent_turn (target_lang : string) (it : iteration) (w : task) :
  silent it → loop_body target_lang (cancel_pending it) w = (Normal tt, w).
Proof.
  intros [_ Hs]. destruct w as [cp tr lg cs].
  unfold loop_body, cancel_pending, try_except. cbn [queue_get AcceptWaveform].
  destruct (queue_get it) as [ data | ]; [ | done ].
  destruct (AcceptWaveform it data) as [ r | r | x ]; [ | | done ]; cbv zeta; rewrite Hs.
  - by rewrite bool_decide_eq_false_2 by (intros H; by apply H).
  - unfold mbind, M_bind, bind, get_current_partial.
    by rewrite bool_decide_eq_false_2 by (intros H; by apply H).
Qed.

Lemma silent_loop (target_lang : string) (its : list iteration) (w : task) :
  Forall silent its →
  while_loop target_lang (cancel_pending <$> its) w = (Normal Looping, w).
Proof.
  induction 1 as [ | it rest Hit _ IH ]; [ done | ].
  cbn [fmap list_fmap while_loop]. 
  replace (stop_is_set (cancel_pending it)) with (stop_is_set it) by done.
  destruct Hit as [Hstop Hs]. rewrite Hstop. unfold mbind, M_bind, bind.
  rewrite silent_turn by done. apply IH.
Qed.

Lemma while_loop_app (target_lang : string) (its more : list iteration) (w : task) :
  while_loop target_lang (its ++ more) w
  = match while_loop target_lang its w with
    | (Normal Looping, w') => while_loop target_lang more w'
    | r => r
    end.
Proof.
  revert w. induction its as [ | it rest IH ]; intros w; [ done | ].
  cbn [app while_loop]. destruct (stop_is_set it); [ done | ].
  unfold mbind, M_bind, bind.
  destruct (loop_body target_lang it w) as [ [ [] | x ] w1 ]; [ apply IH | done ].
Qed.

(** C8, on the code.  While nothing is heard the task reaches no await:
    [audio_queue.get] is a blocking call, and neither [continue] nor the
    branches for an empty text await anything.  Here every await of these
    turns would let a CancelledError out, and none does: the task is still in
    its loop, no cancellation has reached it, and when a word is heard later
    its partial event is still sent.  A coroutine that reaches no await does
    not give the event loop back, so the handler does not run either: the
    stop command is not read, the task is not cancelled and the connection
    stays in the registry. *)
Theorem stop_is_not_delivered_in_silence
    (target_lang : string) (its : list iteration) (text : string) :
  Forall silent its →
  text ≠ EmptyString →
  let quiet := listens (cancel_pending <$> its) in
  let later := listens ((cancel_pending <$> its) ++ [heard (partial_of text)]) in
  (run_task target_lang quiet).1 = Pending
  ∧ cancel_seen (run_task target_lang quiet).2 = None
  ∧ sent (run_task target_lang quiet).2 = [listening_started]
  ∧ (run_task target_lang later).1 = Pending
  ∧ sent (run_task target_lang later).2 = [listening_started; transcription text true].
Proof.
  intros Hs Ht quiet later. subst quiet later.
  unfold run_task, listens. cbn [cancelled_before_start].
  unfold process_audio. cbn [KaldiRecognizer send_status iterations].
  unfold mbind, M_bind, bind, try_except, raise, mret, M_ret, ret, set_current_partial,
    send_str, await, log, logger_append, task_logger, new_task.
  cbn [current_partial sent logged cancel_seen].
  rewrite while_loop_app, !silent_loop by done.
  split_and!; try done.
  - cbn [while_loop heard stop_is_set]. unfold mbind, M_bind, bind.
    unfold loop_body, try_except, partial_of. cbn [queue_get AcceptWaveform heard].
    cbv zeta. rewrite lookup_singleton_eq. cbn [default].
    unfold mbind, M_bind, bind, get_current_partial, set_current_partial, send_str, await.
    cbn [current_partial sent logged cancel_seen send_partial].
    rewrite !bool_decide_eq_true_2 by done. done.
  - cbn [while_loop heard stop_is_set]. unfold mbind, M_bind, bind.
    unfold loop_body, try_except, partial_of. cbn [queue_get AcceptWaveform heard].
    cbv zeta. rewrite lookup_singleton_eq. cbn [default].
    unfold mbind, M_bind, bind, get_current_partial, set_current_partial, send_str, await.
    cbn [current_partial sent logged cancel_seen send_partial].
    rewrite !bool_decide_eq_true_2 by done. done.
Qed.

Lemma stop_is_not_delivered_in_silence_witness :
  let silence := heard (partial_of EmptyString) in
  let empty := Iteration false None (λ _, Fault TypeError) (Returns tt)
                         (λ _, Throws TimeoutError) (Returns tt) (Returns tt) (Returns tt) in
  let quiet := listens (cancel_pending <$> [silence; empty; silence]) in
  let later := listens ((cancel_pending <$> [silence; empty; silence])
                        ++ [heard (partial_of "hello")]) in
  (run_task "fr" quiet).1 = Pending
  ∧ cancel_seen (run_task "fr" quiet).2 = None
  ∧ sent (run_task "fr" quiet).2 = [listening_started]
  ∧ (run_task "fr" later).1 = Pending
  ∧ sent (run_task "fr" later).2 = [listening_started; transcription "hello" true].
Proof.
  apply (stop_is_not_delivered_in_silence "fr"
           [heard (partial_of EmptyString);
            Iteration false None (λ _, Fault TypeError) (Returns tt)
                      (λ _, Throws TimeoutError) (Returns tt) (Returns tt) (Returns tt);
            heard (partial_of EmptyString)]
           "hello").
  - repeat constructor.
  - discriminate.
Defined.

(** The task is cancelled while it awaits the translation of hello, and the
    call has just finished: before Python 3.12 [asyncio.wait_for] then hands
    over the response instead of raising.  The task sends the translation
    and goes on with its loop; the next hypothesis is sent too. *)
Example cancellation_lost_in_wait_for :
  let translating := Iteration false (Some []) (λ _, final_of "hello") (Returns tt)
                               (λ _, Returns fr_ok) (Returns tt) (Returns tt)
                               (Returns tt) in
  run_task "fr" (listens [translating; heard (partial_of "again")])
  = (Pending,
     Task "again"
          [listening_started; transcription "hello" false;
           translation (PyStr "bonjour"); transcription "again" true]
          [(INFO, [Lit "Sent listening_started message to client"]);
           (INFO, [Lit "Sending transcription: "; Str "hello"]);
           (INFO, [Lit "Sending translation: "; Val (PyStr "bonjour")])]
          None).
Proof. reflexivity. Qed.

(** * Further properties *)

(** ** translate_text *)

(** X1. When the call answers 200 and the body is a list whose first item
    has a list of translations whose first item has a text, [translate_text]
    returns that text; the other items and translations are not looked at,
    nothing is logged and the task is left as it was. *)
Theorem translate_text_returns_first_translation
    (post : request → awaited response) (text target_lang : string) (w : task)
    (r : response) (item translation_item : list (string * pyval))
    (items translations : list pyval) (v : pyval) :
  post (translate_request text target_lang) = Returns r →
  requests.status_code r = 200%Z →
  requests.json r = Ok (PyList (PyDict item :: items)) →
  dict_get item "translations" = Some (PyList (PyDict translation_item :: translations)) →
  dict_get translation_item "text" = Some v →
  translate_text post text target_lang w = (Normal v, w).
Proof.
  intros Hpost Hstatus Hjson Hitem Htext.
  unfold translate_text, try_except, mbind, M_bind, bind, await, lift.
  rewrite Hpost, Hstatus. cbn. unfold translated_text_of.
  rewrite Hjson. cbn. rewrite Hitem. cbn. by rewrite Htext.
Qed.

Lemma translate_text_returns_first_translation_witness :
  translate_text
    (λ _, Returns (Response 200 "ok"
                     (Ok (PyList [PyDict [("translations",
                                           PyList [PyDict [("text", PyStr "bonjour")];
                                                   PyDict [("text", PyStr "salut")]])];
                                  PyNone]))))
    "hello" "fr" new_task
  = (Normal (PyStr "bonjour"), new_task).
Proof.
  by eapply translate_text_returns_first_translation.
Defined.

(** X2. [translate_text] never ends with an [Exception], and it neither
    swallows nor makes up a cancellation: it ends with CancelledError exactly
    when CancelledError came out of its await of [asyncio.wait_for]. *)
Theorem translate_text_raises_only_cancellation
    (post : request → awaited response) (text target_lang : string) (w : task) :
  (∀ e, (translate_text post text target_lang w).1 ≠ Abrupt (Exc e))
  ∧ ((translate_text post text target_lang w).1 = Abrupt CancelledError
     ↔ post (translate_request text target_lang) = Cancelled).
Proof.
  destruct (translate_text_cases post text target_lang w) as [ (v & lg & E) | [Hc E] ];
    rewrite E; cbn.
  - split; [ done | ]. split; [ done | ]. intros Hc.
    destruct (translate_text_cases post text target_lang w) as [ _ | [_ E'] ];
      [ | congruence ].
    exfalso. revert E. unfold translate_text, try_except, mbind, M_bind, bind, await.
    rewrite Hc. done.
  - done.
Qed.

Lemma translate_text_raises_only_cancellation_witness :
  (translate_text (λ _, Cancelled) "hello" "fr" new_task).1 = Abrupt CancelledError.
Proof.
  by apply (proj2 (translate_text_raises_only_cancellation (λ _, Cancelled) "hello" "fr"
                     new_task)).
Defined.

(** X3. [translate_text] sends nothing and leaves [current_partial] alone;
    what it adds to the log is at level ERROR, and it adds something exactly
    when it falls back because the call failed: a success and a cancellation
    leave the log as it was. *)
Theorem translate_text_logs_its_failures
    (post : request → awaited response) (text target_lang : string) (w : task) :
  let w' := (translate_text post text target_lang w).2 in
  sent w' = sent w
  ∧ current_partial w' = current_partial w
  ∧ ∃ lg, logged w' = logged w ++ lg
          ∧ Forall (λ entry, entry.1 = ERROR) lg
          ∧ (lg = [] ↔ post (translate_request text target_lang) = Cancelled
                       ∨ ∃ r v, post (translate_request text target_lang) = Returns r
                                ∧ requests.status_code r = 200%Z
                                ∧ translated_text_of r = Ok v).
Proof.
  destruct w as [cp tr lg0 cs].
  unfold translate_text, try_except, mbind, M_bind, bind, await, lift, log, mret, M_ret, ret,
    logger_append, task_logger.
  destruct (post (translate_request text target_lang)) as [ r | e | ]; cbn.
  - destruct (requests.status_code r =? 200)%Z eqn:Hs; cbn.
    + apply Z.eqb_eq in Hs. destruct (translated_text_of r) as [ v | e ] eqn:Hv; cbn.
      * split_and!; try done. exists []. rewrite app_nil_r. split_and!; try done.
        split; [ | done ]. intros _. right. by exists r, v.
      * assert (Hno : ¬ (@Returns response r = Cancelled
                         ∨ ∃ r0 v, Returns r = Returns r0
                                   ∧ requests.status_code r0 = 200%Z
                                   ∧ translated_text_of r0 = Ok v)).
        { intros [ H | (r0 & v & [= <-] & _ & H) ]; congruence. }
        destruct e; cbn; (split_and!; [ done | done | ]); eexists;
          rewrite <- ?app_assoc; (split_and!; [ reflexivity | repeat constructor | ]);
          (split; [ discriminate | done ]).
    + apply Z.eqb_neq in Hs. split_and!; try done. eexists.
      split_and!; [ reflexivity | repeat constructor | ].
      split; [ discriminate | ].
      intros [ H | (r0 & v & [= <-] & H & _) ]; congruence.
  - assert (Hno : ¬ (@Throws response e = Cancelled
                     ∨ ∃ r0 v, Throws e = Returns r0
                               ∧ requests.status_code r0 = 200%Z
                               ∧ translated_text_of r0 = Ok v)).
    { intros [ H | (r0 & v & H & _) ]; congruence. }
    destruct e; cbn; (split_and!; [ done | done | ]); eexists;
      rewrite <- ?app_assoc; (split_and!; [ reflexivity | repeat constructor | ]);
      (split; [ discriminate | done ]).
  - split_and!; try done. exists []. rewrite app_nil_r. split_and!; try done.
    split; [ | done ]. intros _. by left.
Qed.

(** ** process_audio *)

(** When the task is not cancelled while it waits, [translate_text] returns. *)
Lemma wp_translate_text_returns (post : request → awaited response)
    (text target_lang : string) (Q : completion pyval → task → Prop) (w : task) :
  post (translate_request text target_lang) ≠ Cancelled →
  (∀ v lg, translates target_lang text v →
           Q (Normal v) (Task (current_partial w) (sent w) (logged w ++ lg) (cancel_seen w))) →
  wp (translate_text post text target_lang) Q w.
Proof.
  intros Hpost Hv. unfold wp.
  destruct (translate_text_cases post text target_lang w) as [ (v & lg & E) | [Hc _] ];
    [ | done ].
  rewrite E. apply Hv. exists post, w. by rewrite E.
Qed.

(** X4. An exception leaves a turn of the loop only out of the sleep that
    follows an error: whatever the recognizer, the socket and the translation
    service raise is caught inside the turn. *)
Theorem turn_contains_errors
    (target_lang : string) (it : iteration) (w : task) (e : exception) :
  (loop_body target_lang it w).1 = Abrupt (Exc e) → sleep it = Throws e.
Proof.
  change (wp (loop_body target_lang it)
            (λ c _, c = Abrupt (Exc e) → sleep it = Throws e) w).
  unfold loop_body. apply wp_try_except.
  destruct (queue_get it) as [ data | ];
    [ destruct (AcceptWaveform it data) as [ r | r | x ] | ].
  - cbv zeta. case_bool_decide; wp_run; congruence.
  - cbv zeta. apply wp_bind, wp_get_current_partial.
    destruct (_ && _); wp_run; congruence.
  - wp_run; congruence.
  - wp_run; congruence.
Qed.

Lemma turn_contains_errors_witness :
  let it := Iteration false (Some []) (λ _, Fault TypeError) (Returns tt)
                      (λ _, Throws TimeoutError) (Returns tt) (Returns tt)
                      (Throws (OtherException "RuntimeError")) in
  (loop_body "fr" it new_task).1 = Abrupt (Exc (OtherException "RuntimeError"))
  ∧ sleep it = Throws (OtherException "RuntimeError").
Proof.
  split; [ reflexivity | ].
  exact (turn_contains_errors "fr"
           (Iteration false (Some []) (λ _, Fault TypeError) (Returns tt)
                      (λ _, Throws TimeoutError) (Returns tt) (Returns tt)
                      (Throws (OtherException "RuntimeError")))
           new_task (OtherException "RuntimeError") eq_refl).
Defined.

Lemma benign_turn_returns (target_lang : string) (it : iteration) (w : task) :
  benign it → (loop_body target_lang it w).1 = Normal tt.
Proof.
  intros (_ & Hsleep & Hf & Ht & Hp & Hpost).
  change (wp (loop_body target_lang it) (λ c _, c = Normal tt) w).
  unfold loop_body. apply wp_try_except. rewrite Hsleep.
  destruct (queue_get it) as [ data | ];
    [ destruct (AcceptWaveform it data) as [ r | r | x ] | ].
  - cbv zeta. case_bool_decide; [ | by wp_run ].
    apply wp_bind, wp_log. cbv beta iota. apply wp_bind, wp_send_str, wp_await.
    destruct (send_final it) as [ [] | x | ]; [ | by wp_run | done ].
    cbv beta iota. apply wp_bind, wp_translate_text_returns; [ apply Hpost | ].
    intros v lg _. cbv beta iota.
    apply wp_bind, wp_log. cbv beta iota. apply wp_send_str, wp_await.
    destruct (send_translation it) as [ [] | x | ]; [ done | by wp_run | done ].
  - cbv zeta. apply wp_bind, wp_get_current_partial.
    destruct (_ && _); [ | by wp_run ].
    cbv beta iota. apply wp_bind, wp_set_current_partial. cbv beta iota.
    apply wp_send_str, wp_await.
    destruct (send_partial it) as [ [] | x | ]; [ done | by wp_run | done ].
  - by wp_run.
  - by wp_run.
Qed.

Lemma benign_loop_goes_on (target_lang : string) (its : list iteration) (w : task) :
  Forall benign its → (while_loop target_lang its w).1 = Normal Looping.
Proof.
  intros Hb. revert w. induction Hb as [ | it rest Hit _ IH ]; intros w; [ done | ].
  cbn [while_loop]. destruct Hit as [Hstop Hrest]. rewrite Hstop.
  unfold mbind, M_bind, bind.
  pose proof (benign_turn_returns target_lang it w (conj Hstop Hrest)) as Hturn.
  destruct (loop_body target_lang it w) as [ c w1 ]. cbn in Hturn. subst c. apply IH.
Qed.

(** X5. A session survives its errors.  Once the recognizer is created and
    the status message sent, no recognizer fault, failed send or failed
    translation ends the task: as long as the stop signal is clear, the task
    is not cancelled and the sleep after an error returns, it is still in
    its loop. *)
Theorem session_survives_errors (target_lang : string) (o : oracle) :
  cancelled_before_start o = false →
  KaldiRecognizer o = None →
  send_status o = Returns tt →
  Forall benign (iterations o) →
  (run_task target_lang o).1 = Pending.
Proof.
  intros Hc Hk Hs Hb. unfold run_task. rewrite Hc.
  unfold process_audio. rewrite Hk, Hs.
  unfold mbind, M_bind, bind, try_except, raise, mret, M_ret, ret, set_current_partial,
    send_str, await, log, logger_append, task_logger, new_task.
  cbn [current_partial sent logged cancel_seen].
  match goal with
  | |- context [ while_loop target_lang (iterations o) ?w ] =>
      pose proof (benign_loop_goes_on target_lang (iterations o) w Hb) as Hloop;
      destruct (while_loop target_lang (iterations o) w) as [ c w' ]
  end.
  cbn in Hloop. by subst c.
Qed.

Lemma session_survives_errors_witness :
  let failing := Iteration false (Some []) (λ _, final_of "hello")
                           (Throws (OtherException "ConnectionResetError"))
                           (λ _, Throws TimeoutError) (Returns tt) (Returns tt)
                           (Returns tt) in
  let faulty := heard (Fault (OtherException "RuntimeError")) in
  (run_task "fr" (listens [failing; faulty; heard (final_of "world")])).1 = Pending.
Proof.
  apply session_survives_errors; try reflexivity.
  repeat constructor; cbn; discriminate.
Defined.

(** X6. A failure before the loop ends the task at once and quietly: when
    the recognizer cannot be created, or the status message cannot be sent,
    the task returns without an exception, no transcription or translation
    is ever sent, and the last thing logged is that processing stopped. *)
Theorem startup_failure_ends_task (target_lang : string) (o : oracle) (e : exception) :
  cancelled_before_start o = false →
  KaldiRecognizer o = Some e ∨ (KaldiRecognizer o = None ∧ send_status o = Throws e) →
  (run_task target_lang o).1 = Finished Returned
  ∧ Forall (λ m, is_text_event m = false) (sent (run_task target_lang o).2)
  ∧ last (logged (run_task target_lang o).2) = Some (INFO, [Lit "Audio processing stopped"]).
Proof.
  intros Hc Hfail. unfold run_task. rewrite Hc. unfold process_audio.
  destruct Hfail as [ Hk | [Hk Hs] ]; rewrite Hk; [ | rewrite Hs ]; cbn;
    split_and!; try done; repeat constructor.
Qed.

Lemma startup_failure_ends_task_witness :
  let o := Oracle false None (Throws (OtherException "ConnectionResetError"))
                  [heard (final_of "hello")] in
  (run_task "fr" o).1 = Finished Returned
  ∧ sent (run_task "fr" o).2 = [listening_started].
Proof.
  destruct (startup_failure_ends_task "fr"
              (Oracle false None (Throws (OtherException "ConnectionResetError"))
                      [heard (final_of "hello")])
              (OtherException "ConnectionResetError") eq_refl
              (or_intror (conj eq_refl eq_refl))) as (Hst & _ & _).
  split; [ exact Hst | reflexivity ].
Defined.

Lemma stopped_loop_is_over (target_lang : string) (its : list iteration) (w : task) :
  Exists (λ it, stop_is_set it = true) its →
  (while_loop target_lang its w).1 ≠ Normal Looping.
Proof.
  intros Hex. revert w. induction its as [ | it rest IH ]; intros w.
  - by apply Exists_nil in Hex.
  - cbn [while_loop]. destruct (stop_is_set it) eqn:Hstop; [ done | ].
    apply Exists_cons in Hex as [ Hex | Hex ]; [ congruence | ].
    unfold mbind, M_bind, bind.
    destruct (loop_body target_lang it w) as [ [ [] | x ] w1 ]; [ by apply IH | done ].
Qed.

(** X7. The stop signal ends the task: when some turn of the loop finds the
    signal set, the task is over, by return or by cancellation, whatever the
    other turns do. *)
Theorem stop_signal_ends_task (target_lang : string) (o : oracle) :
  Exists (λ it, stop_is_set it = true) (iterations o) →
  (run_task target_lang o).1 = Finished Returned
  ∨ (run_task target_lang o).1 = Finished WasCancelled.
Proof.
  intros Hex. pose proof (run_task_spec target_lang o) as [_ Hspec].
  assert (Hnp : (run_task target_lang o).1 ≠ Pending).
  { unfold run_task. destruct (cancelled_before_start o); [ done | ].
    unfold process_audio, mbind, M_bind, bind, try_except.
    destruct (KaldiRecognizer o) as [ x | ]; [ done | ].
    unfold raise, mret, M_ret, ret, set_current_partial, send_str, await, log,
      logger_append, task_logger, new_task.
    cbn [current_partial sent logged cancel_seen].
    destruct (send_status o) as [ [] | x | ]; try done.
    match goal with
    | |- context [ while_loop target_lang (iterations o) ?w ] =>
        pose proof (stopped_loop_is_over target_lang (iterations o) w Hex) as Hloop;
        destruct (while_loop target_lang (iterations o) w) as [ [ [ | ] | [ x | ] ] w' ]
    end; done. }
  destruct (run_task target_lang o).1 as [ | [ | | x ] ]; auto; done.
Qed.

Lemma stop_signal_ends_task_witness :
  let stop := Iteration true None (λ _, Fault TypeError) (Returns tt)
                        (λ _, Throws TimeoutError) (Returns tt) (Returns tt) (Returns tt) in
  (run_task "fr" (listens [heard (partial_of "hello"); stop; heard (final_of "hello")])).1
  = Finished Returned
  ∨ (run_task "fr" (listens [heard (partial_of "hello"); stop; heard (final_of "hello")])).1
    = Finished WasCancelled.
Proof.
  apply stop_signal_ends_task. apply Exists_cons_tl, Exists_cons_hd. reflexivity.
Defined.

Lemma idle_turn_skipped (target_lang : string) (it : iteration) (rest : list iteration)
    (w : task) :
  idle it = true →
  while_loop target_lang (it :: rest) w = while_loop target_lang rest w.
Proof.
  unfold idle. intros [Hs Hq]%andb_prop. apply negb_true_iff in Hs.
  apply bool_decide_eq_true in Hq.
  cbn [while_loop]. rewrite Hs. unfold loop_body. by rewrite Hq.
Qed.

Lemma while_loop_without_idle (target_lang : string) (its : list iteration) (w : task) :
  while_loop target_lang its w
  = while_loop target_lang (filter (λ it, idle it = false) its) w.
Proof.
  revert w. induction its as [ | it rest IH ]; intros w; [ done | ].
  destruct (idle it) eqn:Hidle.
  - rewrite idle_turn_skipped by done. rewrite filter_cons_False by (by rewrite Hidle).
    apply IH.
  - rewrite filter_cons_True by done. cbn [while_loop].
    destruct (stop_is_set it); [ done | ]. unfold mbind, M_bind, bind.
    destruct (loop_body target_lang it w) as [ [ [] | x ] w1 ]; [ apply IH | done ].
Qed.

(** X8. Polls of an empty queue are invisible: removing from a run the
    turns that found the stop signal clear and the queue empty changes
    neither how the task ends nor what it sent, logged or remembers. *)
Theorem empty_polls_change_nothing (target_lang : string) (o : oracle) :
  run_task target_lang (with_iterations o (filter (λ it, idle it = false) (iterations o)))
  = run_task target_lang o.
Proof.
  unfold run_task, with_iterations. cbn [cancelled_before_start].
  destruct (cancelled_before_start o); [ done | ].
  unfold process_audio. cbn [KaldiRecognizer send_status iterations].
  unfold mbind, M_bind, bind, try_except.
  destruct (KaldiRecognizer o) as [ x | ]; [ done | ].
  unfold raise, mret, M_ret, ret, set_current_partial, send_str, await, log,
    logger_append, task_logger, new_task.
  cbn [current_partial sent logged cancel_seen].
  destruct (send_status o) as [ [] | x | ]; try done.
  by rewrite <- while_loop_without_idle.
Qed.

(** X10. A partial result is sent exactly when its text is non-empty and
    differs from [current_partial]; then [current_partial] takes that text,
    before the send and whether or not the send succeeds.  Otherwise the
    turn sends nothing and [current_partial] stays. *)
Theorem partial_turn
    (target_lang : string) (it : iteration) (w : task)
    (data : list Byte.byte) (r : gmap string string) :
  queue_get it = Some data →
  AcceptWaveform it data = Partial r →
  let text := default EmptyString (r !! "partial") in
  let w' := (loop_body target_lang it w).2 in
  if decide (text ≠ EmptyString ∧ text ≠ current_partial w)
  then sent w' = sent w ++ [transcription text true] ∧ current_partial w' = text
  else sent w' = sent w ∧ current_partial w' = current_partial w.
Proof.
  intros Hq Ha text w'. subst w'.
  change (wp (loop_body target_lang it)
            (λ _ w', if decide (text ≠ EmptyString ∧ text ≠ current_partial w)
                     then sent w' = sent w ++ [transcription text true]
                          ∧ current_partial w' = text
                     else sent w' = sent w ∧ current_partial w' = current_partial w) w).
  destruct w as [cp tr lg cs]. unfold loop_body. rewrite Hq, Ha. cbv zeta. fold text.
  cbn [current_partial sent]. apply wp_try_except, wp_bind, wp_get_current_partial.
  cbn [current_partial].
  destruct (decide (text ≠ EmptyString ∧ text ≠ cp)) as [ [H1 H2] | Hno ].
  - rewrite !bool_decide_eq_true_2 by done. cbn [andb]. by wp_run.
  - assert (Hf : bool_decide (text ≠ EmptyString) && bool_decide (text ≠ cp) = false).
    { apply andb_false_iff. rewrite !bool_decide_eq_false.
      destruct (decide (text ≠ EmptyString)); [ right | left ]; tauto. }
    rewrite Hf. by wp_run.
Qed.

Lemma partial_turn_witness :
  let w := Task "hello" [listening_started; transcription "hello" true] [] None in
  let failing := Iteration false (Some []) (λ _, partial_of "hello world") (Returns tt)
                           (λ _, Throws TimeoutError) (Returns tt)
                           (Throws (OtherException "ConnectionResetError")) (Returns tt) in
  (sent (loop_body "fr" failing w).2 = sent w ++ [transcription "hello world" true]
   ∧ current_partial (loop_body "fr" failing w).2 = "hello world")
  ∧ (sent (loop_body "fr" (heard (partial_of "hello")) w).2 = sent w
     ∧ current_partial (loop_body "fr" (heard (partial_of "hello")) w).2 = "hello").
Proof.
  split.
  - exact (partial_turn "fr"
             (Iteration false (Some []) (λ _, partial_of "hello world") (Returns tt)
                        (λ _, Throws TimeoutError) (Returns tt)
                        (Throws (OtherException "ConnectionResetError")) (Returns tt))
             (Task "hello" [listening_started; transcription "hello" true] [] None)
             [] {[ "partial" := "hello world" ]} eq_refl eq_refl).
  - exact (partial_turn "fr" (heard (partial_of "hello"))
             (Task "hello" [listening_started; transcription "hello" true] [] None)
             [] {[ "partial" := "hello" ]} eq_refl eq_refl).
Defined.

(** X11. Every final transcription whose send returns is followed by its
    translation event, whatever the translation service does: unless the
    task is cancelled while it waits for the service, the turn sends the
    transcription and then a translation of its text. *)
Theorem final_is_followed_by_translation
    (target_lang : string) (it : iteration) (w : task)
    (data : list Byte.byte) (r : gmap string string) :
  queue_get it = Some data →
  AcceptWaveform it data = Final r →
  default EmptyString (r !! "text") ≠ EmptyString →
  send_final it = Returns tt →
  post it (translate_request (default EmptyString (r !! "text")) target_lang) ≠ Cancelled →
  let text := default EmptyString (r !! "text") in
  ∃ v, sent (loop_body target_lang it w).2
       = sent w ++ [transcription text false; translation v]
       ∧ translates target_lang text v.
Proof.
  intros Hq Ha Ht Hsend Hpost text.
  change (wp (loop_body target_lang it)
            (λ _ w', ∃ v, sent w' = sent w ++ [transcription text false; translation v]
                          ∧ translates target_lang text v) w).
  destruct w as [cp tr lg cs]. unfold loop_body. rewrite Hq, Ha. cbv zeta.
  rewrite bool_decide_eq_true_2 by done. fold text.
  apply wp_try_except, wp_bind, wp_log. cbv beta iota.
  apply wp_bind, wp_send_str, wp_await. rewrite Hsend. cbv beta iota.
  apply wp_bind, wp_translate_text_returns; [ done | ]. intros v lg' Hv.
  cbv beta iota. wp_run; cbn; exists v; by rewrite <- app_assoc.
Qed.

Lemma final_is_followed_by_translation_witness :
  let garbled := Iteration false (Some []) (λ _, final_of "test") (Returns tt)
                           (λ _, Returns (Response 200 "{}" (Ok (PyDict []))))
                           (Returns tt) (Returns tt) (Returns tt) in
  ∃ v, sent (loop_body "fr" garbled new_task).2
       = sent new_task ++ [transcription "test" false; translation v]
       ∧ translates "fr" "test" v.
Proof.
  exact (final_is_followed_by_translation "fr"
           (Iteration false (Some []) (λ _, final_of "test") (Returns tt)
                      (λ _, Returns (Response 200 "{}" (Ok (PyDict []))))
                      (Returns tt) (Returns tt) (Returns tt))
           new_task [] {[ "text" := "test" ]} eq_refl eq_refl
           ltac:(vm_compute; discriminate) eq_refl ltac:(discriminate)).
Defined.

(** X12. When the send of a final transcription raises, the translation is
    skipped: the turn sends nothing else, the translation service is not
    asked (nothing about a translation is logged), the error is logged and
    the turn ends as the sleep after it does. *)
Theorem failed_final_send_skips_translation
    (target_lang : string) (it : iteration) (w : task)
    (data : list Byte.byte) (r : gmap string string) (e : exception) :
  queue_get it = Some data →
  AcceptWaveform it data = Final r →
  default EmptyString (r !! "text") ≠ EmptyString →
  send_final it = Throws e →
  let text := default EmptyString (r !! "text") in
  let w' := (loop_body target_lang it w).2 in
  sent w' = sent w ++ [transcription text false]
  ∧ logged w' = logged w ++ [(INFO, [Lit "Sending transcription: "; Str text]);
                             (ERROR, [Lit "Error processing audio data: "; ExcStr e]);
                             (ERROR, [Traceback e])]
  ∧ (loop_body target_lang it w).1
    = match sleep it with
      | Returns _ => Normal tt
      | Throws x => Abrupt (Exc x)
      | Cancelled => Abrupt CancelledError
      end.
Proof.
  intros Hq Ha Ht Hsend text w'. subst w'. destruct w as [cp tr lg cs].
  unfold loop_body, try_except, mbind, M_bind, bind. rewrite Hq, Ha. cbv zeta.
  rewrite bool_decide_eq_true_2 by done. fold text.
  unfold send_str, await, log, logger_append, task_logger. rewrite Hsend.
  cbn [current_partial sent logged cancel_seen].
  destruct (sleep it) as [ [] | x | ]; cbn; rewrite <- ?app_assoc; done.
Qed.

Lemma failed_final_send_skips_translation_witness :
  let failing := Iteration false (Some []) (λ _, final_of "hello")
                           (Throws (OtherException "ConnectionResetError"))
                           (λ _, Returns fr_ok) (Returns tt) (Returns tt) (Returns tt) in
  sent (loop_body "fr" failing new_task).2 = [transcription "hello" false]
  ∧ (loop_body "fr" failing new_task).1 = Normal tt.
Proof.
  destruct (failed_final_send_skips_translation "fr"
              (Iteration false (Some []) (λ _, final_of "hello")
                         (Throws (OtherException "ConnectionResetError"))
                         (λ _, Returns fr_ok) (Returns tt) (Returns tt) (Returns tt))
              new_task [] {[ "text" := "hello" ]} (OtherException "ConnectionResetError")
              eq_refl eq_refl ltac:(vm_compute; discriminate) eq_refl)
    as (Hsent & _ & Hres).
  split; [ exact Hsent | exact Hres ].
Defined.

(** ** The registry and the capture device, continued *)

Lemma connect_ok (ws : nat) (target_lang : string) (s : server) :
  ws ∉ active_connections s →
  ∃ s', open_connection ws target_lang s = (Normal tt, s')
        ∧ step s (Connect ws target_lang) = Some s'.
Proof.
  intros Hin. cbn [step]. rewrite bool_decide_eq_false_2 by done. unfold_server.
  destruct (size ({[ws]} ∪ active_connections s) =? 1)%nat; cbn; eauto.
Qed.

(** X13. A connection followed by its own disconnection gives the registry
    back as it was.  When the registry was empty the pair leaves one more
    capture task and the stop signal set; otherwise it touches neither. *)
Theorem connect_disconnect_round_trip (ws : nat) (target_lang : string) (s : server) :
  ws ∉ active_connections s →
  ∃ s', run s [Connect ws target_lang; Disconnect ws] = Some s'
        ∧ active_connections s' = active_connections s
        ∧ (if decide (size (active_connections s) = 0)
           then should_stop s' = true ∧ captures s' = captures s ++ [Created]
           else should_stop s' = should_stop s ∧ captures s' = captures s).
Proof.
  intros Hin. destruct (connect_ok ws target_lang s Hin) as (s1 & _ & H1).
  pose proof (step_connect _ _ _ _ H1) as (_ & Ha1 & Hs1 & Hc1).
  assert (Hin1 : ws ∈ active_connections s1).
  { rewrite Ha1. apply elem_of_union_l. by apply elem_of_singleton. }
  destruct (close_connection_ok ws s1 Hin1) as (s2 & _ & H2).
  pose proof (step_disconnect _ _ _ H2) as (_ & Ha2 & Hs2 & Hc2 & Hstop2).
  exists s2. cbn [run]. rewrite H1, H2. split_and!; [ done | | ].
  - rewrite Ha2, Ha1. apply set_eq. intros x.
    rewrite elem_of_difference, elem_of_union, elem_of_singleton. split.
    + intros [[-> | Hx] Hne]; done.
    + intros Hx. split; [ by right | ]. intros ->. done.
  - rewrite Hs1 in Hstop2. destruct (decide (size (active_connections s) = 0)) as [ H0 | H0 ].
    + destruct Hc1 as [_ Hc1]. rewrite decide_True in Hstop2 by lia.
      split; [ done | congruence ].
    + destruct Hc1 as [Hst1 Hc1]. rewrite decide_False in Hstop2 by lia.
      split; congruence.
Qed.

Lemma connect_disconnect_round_trip_witness :
  ∃ s', run (Server {[1]} false [Open] []) [Connect 2 "de"; Disconnect 2] = Some s'
        ∧ active_connections s' = {[1]}
        ∧ should_stop s' = false ∧ captures s' = [Open].
Proof.
  assert (Hin : 2 ∉ active_connections (Server {[1]} false [Open] [])).
  { cbn [active_connections]. intros H. apply elem_of_singleton in H. discriminate H. }
  destruct (connect_disconnect_round_trip 2 "de" (Server {[1]} false [Open] []) Hin)
    as (s' & Hrun & Hact & Hrest).
  exists s'. split_and!; [ exact Hrun | exact Hact | | ];
    rewrite decide_False in Hrest by (cbn [active_connections]; rewrite size_singleton; lia);
    apply Hrest.
Defined.

Lemma step_keeps_over (s s' : server) (ev : event) (i : nat) (c : capture) :
  captures s !! i = Some c → over c = true →
  step s ev = Some s' → captures s' !! i = Some c.
Proof.
  intros Hi Hover Hstep. destruct ev as [ ws lang | ws | j device | j | ].
  - apply step_connect in Hstep as (_ & _ & _ & Hc). case_decide.
    + destruct Hc as [_ ->]. by apply lookup_app_l_Some.
    + destruct Hc as [_ ->]. done.
  - apply step_disconnect in Hstep as (_ & _ & _ & -> & _). done.
  - apply step_start in Hstep as (Hj & _ & _ & ->).
    rewrite list_lookup_insert_ne; [ done | ]. intros ->.
    rewrite Hi in Hj. injection Hj as ->. done.
  - apply step_poll in Hstep as (Hj & _ & _ & ->).
    destruct (should_stop s); [ | done ].
    rewrite list_lookup_insert_ne; [ done | ]. intros ->.
    rewrite Hi in Hj. injection Hj as ->. done.
  - apply step_shutdown in Hstep as (_ & _ & ->). done.
Qed.

(** X14. A capture task that is over stays over: once its stream is closed,
    or failed to open, no connection, poll or shutdown opens it again; only
    a new capture task can capture again. *)
Theorem closed_stream_stays_closed
    (evs : list event) (s s' : server) (i : nat) (c : capture) :
  captures s !! i = Some c → over c = true →
  run s evs = Some s' → captures s' !! i = Some c.
Proof.
  revert s. induction evs as [ | ev evs IH ]; intros s Hi Hover; cbn [run].
  - by intros [= <-].
  - destruct (step s ev) as [ s1 | ] eqn:E; [ | done ].
    apply IH; [ | done ]. by eapply step_keeps_over.
Qed.

Lemma closed_stream_stays_closed_witness :
  ∃ s', run (Server ∅ true [Closed] []) [Connect 1 "fr"; Start 1 None; Poll 1; Disconnect 1]
        = Some s'
        ∧ captures s' !! 0 = Some Closed.
Proof.
  destruct (run (Server ∅ true [Closed] [])
              [Connect 1 "fr"; Start 1 None; Poll 1; Disconnect 1]) as [ s' | ] eqn:E;
    [ | by vm_compute in E ].
  exists s'. split; [ done | ].
  exact (closed_stream_stays_closed _ (Server ∅ true [Closed] []) s' 0 Closed
           eq_refl eq_refl E).
Defined.

(** ** websocket_handler, continued *)

(** However the [try] block ends, the [finally] block runs on a state that
    differs from the first one by its log only. *)
Lemma serve_state (json_loads : string → result pyval) (ws : nat)
    (msgs : list WSMessage) (e : ending) (s : server) :
  ws ∈ active_connections s →
  ∃ lg s' c,
    step (logging s lg) (Disconnect ws) = Some s'
    ∧ (receive_loop json_loads msgs;; except_cancelled_pass (await_task e)) s
      = (c, logging s lg)
    ∧ serve json_loads ws msgs e s = (c, s').
Proof.
  intros Hin. unfold serve, try_finally, mbind, M_bind, bind.
  destruct (receive_loop_frame json_loads msgs s) as [lg Hlg].
  destruct (receive_loop json_loads msgs s) as [ c s1 ]. cbn in Hlg. subst s1.
  assert (Hin' : ws ∈ active_connections (logging s lg)) by done.
  destruct (close_connection_ok ws _ Hin') as (s' & Hclose & Hstep).
  exists lg, s'.
  destruct c as [ [] | x ].
  - destruct e as [ | | x ]; cbn; rewrite Hclose; eauto.
  - rewrite Hclose. eauto.
Qed.

(** X15. The registry never keeps a connection whose handler is over:
    however the message loop ends (a stop command, an error message, the
    socket closing, an exception out of the loop) and however the task
    ended, the [finally] block takes the connection out of the registry,
    sets the stop signal when it was the last one, and starts or stops no
    capture task. *)
Theorem serve_always_unregisters
    (json_loads : string → result pyval) (ws : nat) (msgs : list WSMessage)
    (e : ending) (s : server) :
  ws ∈ active_connections s →
  let s' := (serve json_loads ws msgs e s).2 in
  active_connections s' = active_connections s ∖ {[ws]}
  ∧ captures s' = captures s
  ∧ (if decide (size (active_connections s) = 1)
     then should_stop s' = true
     else should_stop s' = should_stop s).
Proof.
  intros Hin s'. subst s'.
  destruct (serve_state json_loads ws msgs e s Hin) as (lg & s' & c & Hstep & _ & ->).
  by apply step_disconnect in Hstep as (_ & Ha & _ & Hc & Hstop).
Qed.

Lemma serve_always_unregisters_witness :
  let s' := (serve (λ _, Ok (PyList [])) 1 [WSMsg WSMsgType.TEXT "[]"] (Raised TypeError)
               (Server {[1; 2]} false [Open] [])).2 in
  active_connections s' = {[1; 2]} ∖ {[1]}
  ∧ captures s' = [Open]
  ∧ should_stop s' = false.
Proof.
  assert (Hin : 1 ∈ active_connections (Server {[1; 2]} false [Open] [])).
  { cbn [active_connections]. apply elem_of_union_l. by apply elem_of_singleton. }
  destruct (serve_always_unregisters (λ _, Ok (PyList [])) 1 [WSMsg WSMsgType.TEXT "[]"]
              (Raised TypeError) (Server {[1; 2]} false [Open] []) Hin)
    as (Ha & Hc & Hstop).
  split_and!; [ exact Ha | exact Hc | reflexivity ].
Defined.

Lemma receive_loop_skip (json_loads : string → result pyval) (msg : WSMessage)
    (rest : list WSMessage) (s : server) :
  relevant msg = false →
  receive_loop json_loads (msg :: rest) s = receive_loop json_loads rest s.
Proof.
  unfold relevant. intros Hr. cbn [receive_loop]. unfold on_message.
  destruct (type msg); try discriminate Hr; done.
Qed.

(** X17. Binary, ping, pong and continuation messages are invisible to the
    handler: dropping them from what the socket delivers changes neither how
    the message loop ends nor the state it leaves; nothing is logged for
    them. *)
Theorem other_messages_are_skipped
    (json_loads : string → result pyval) (msgs : list WSMessage) (s : server) :
  receive_loop json_loads (filter (λ msg, relevant msg = true) msgs) s
  = receive_loop json_loads msgs s.
Proof.
  revert s. induction msgs as [ | msg rest IH ]; intros s; [ done | ].
  destruct (relevant msg) eqn:Hr.
  - rewrite filter_cons_True by done. cbn [receive_loop].
    destruct (closes (type msg)); [ done | ]. unfold mbind, M_bind, bind.
    destruct (on_message json_loads msg s) as [ [ [ | ] | x ] s1 ]; [ apply IH | done | done ].
  - rewrite filter_cons_False by (by rewrite Hr). rewrite receive_loop_skip by done.
    apply IH.
Qed.

Lemma receive_loop_not_a_dict (json_loads : string → result pyval)
    (before after : list WSMessage) (data : string) (v : pyval) (s : server) :
  Forall (passes json_loads) before →
  json_loads data = Ok v → is_dict v = false →
  (receive_loop json_loads (before ++ WSMsg WSMsgType.TEXT data :: after) s).1
  = Abrupt (Exc AttributeError).
Proof.
  intros Hb Hj Hv. revert s. induction Hb as [ | msg before Hm _ IH ]; intros s.
  - cbn [app receive_loop type closes]. unfold_handler. rewrite Hj. cbn.
    by destruct v.
  - cbn [app]. rewrite receive_loop_pass by done. apply IH.
Qed.

(** X18. A text message that is valid JSON but not an object ends the
    handler with AttributeError: [data.get] is not there, and no [except]
    of the handler catches it.  The task of the connection is then neither
    cancelled nor awaited (how it ends does not matter to the handler), and
    the connection is still taken out of the registry. *)
Theorem non_object_json_raises
    (json_loads : string → result pyval) (ws : nat) (before after : list WSMessage)
    (data : string) (v : pyval) (e : ending) (s : server) :
  Forall (passes json_loads) before →
  json_loads data = Ok v → is_dict v = false →
  ws ∈ active_connections s →
  let r := serve json_loads ws (before ++ WSMsg WSMsgType.TEXT data :: after) e s in
  r.1 = Abrupt (Exc AttributeError)
  ∧ (ws ∉ active_connections r.2).
Proof.
  intros Hb Hj Hv Hin r. subst r.
  destruct (serve_state json_loads ws (before ++ WSMsg WSMsgType.TEXT data :: after) e s Hin)
    as (lg & s' & c & Hstep & Htry & ->).
  apply step_disconnect in Hstep as (_ & Ha & _). cbn [fst snd]. split.
  - pose proof (receive_loop_not_a_dict json_loads before after data v s Hb Hj Hv) as Hloop.
    unfold mbind, M_bind, bind in Htry.
    destruct (receive_loop json_loads _ s) as [ c0 s0 ]. cbn in Hloop. subst c0.
    by injection Htry as <- _.
  - rewrite Ha. intros H. apply elem_of_difference in H as [_ H].
    apply H. by apply elem_of_singleton.
Qed.

Lemma non_object_json_raises_witness :
  let r := serve (λ _, Ok (PyInt 5)) 1 [WSMsg WSMsgType.TEXT "5"] (Raised TypeError)
                 (Server {[1]} false [Open] []) in
  r.1 = Abrupt (Exc AttributeError) ∧ (1 ∉ active_connections r.2).
Proof.
  assert (Hin : 1 ∈ active_connections (Server {[1]} false [Open] []))
    by (cbn [active_connections]; apply elem_of_singleton; reflexivity).
  exact (non_object_json_raises (λ _, Ok (PyInt 5)) 1 [] [] "5" (PyInt 5) (Raised TypeError)
           (Server {[1]} false [Open] []) (List.Forall_nil _) eq_refl eq_refl Hin).
Defined.

(** ** audio_callback and the frame queue *)

Lemma callbacks_run (calls : list (list Byte.byte * option string)) (s : capture_side) :
  callbacks calls s
  = (Normal tt,
     CaptureSide (audio_queue s ++ calls.*1) (capture_log s ++ warnings calls)).
Proof.
  revert s. induction calls as [ | [indata status] rest IH ]; intros [q lg].
  - cbn. by rewrite !app_nil_r.
  - cbn [callbacks]. unfold audio_callback, mbind, M_bind, bind, put, log, mret, M_ret, ret,
      logger_append, capture_side_logger.
    destruct status as [ flags | ]; cbn; rewrite IH; cbn; by rewrite <- !app_assoc.
Qed.

Lemma get_blocks_run (n : nat) (s : capture_side) :
  get_blocks n s
  = (Normal (take n (audio_queue s)), CaptureSide (drop n (audio_queue s)) (capture_log s)).
Proof.
  revert s. induction n as [ | n IH ]; intros [q lg].
  - done.
  - cbn [get_blocks]. unfold mbind, M_bind, bind, get_block.
    destruct q as [ | block q ]; cbn; [ done | ]. rewrite IH. done.
Qed.

(** X19. The callback never drops, reorders or blocks on a block of audio:
    after any sequence of callbacks the queue holds what it held, followed
    by the blocks in the order they were captured, and a status with a flag
    set only adds a warning to the log.  A consumer then pops the blocks in
    that order, and finds the queue empty after the last one. *)
Theorem callbacks_enqueue_in_order
    (calls : list (list Byte.byte * option string)) (s : capture_side) (n : nat) :
  let s' := (callbacks calls s).2 in
  (callbacks calls s).1 = Normal tt
  ∧ audio_queue s' = audio_queue s ++ calls.*1
  ∧ capture_log s' = capture_log s ++ warnings calls
  ∧ (get_blocks n s').1 = Normal (take n (audio_queue s ++ calls.*1))
  ∧ audio_queue (get_blocks n s').2 = drop n (audio_queue s ++ calls.*1)
  ∧ ((length (audio_queue s ++ calls.*1) ≤ n)%nat →
     (get_block (get_blocks n s').2).1 = Normal None).
Proof.
  intros s'. subst s'. rewrite callbacks_run. cbn [fst snd audio_queue capture_log].
  rewrite get_blocks_run. cbn [fst snd audio_queue capture_log].
  split_and!; try done.
  intros Hn. unfold get_block. cbn [audio_queue]. by rewrite drop_ge.
Qed.

Lemma callbacks_enqueue_in_order_witness :
  let calls := [([Byte.x01], None); ([Byte.x02], Some "input overflow"); ([Byte.x03], None)] in
  let s' := (callbacks calls (CaptureSide [] [])).2 in
  (get_blocks 3 s').1 = Normal [[Byte.x01]; [Byte.x02]; [Byte.x03]]
  ∧ capture_log s' = [(WARNING, [Lit "Audio status: "; Str "input overflow"])]
  ∧ (get_block (get_blocks 3 s').2).1 = Normal None.
Proof.
  destruct (callbacks_enqueue_in_order
              [([Byte.x01], None); ([Byte.x02], Some "input overflow"); ([Byte.x03], None)]
              (CaptureSide [] []) 3) as (_ & _ & Hlog & Hget & _ & Hempty).
  split_and!; [ exact Hget | exact Hlog | apply Hempty; cbn; lia ].
Defined.

(** ** The messages on the socket *)

(** X20. The dicts sent to the client tell the messages apart: two
    messages with the same dict are the same message, the type member is
    transcription for both kinds of transcription, and the partial member is
    there, and true, exactly on a partial transcription. *)
Theorem payload_tells_messages_apart (m1 m2 : message) :
  (payload m1 = payload m2 → m1 = m2)
  ∧ (dict_get (match payload m1 with PyDict d => d | _ => [] end) "partial"
     = Some (PyBool true)
     ↔ ∃ text, m1 = transcription text true)
  ∧ (dict_get (match payload m1 with PyDict d => d | _ => [] end) "type"
     = Some (PyStr "transcription")
     ↔ ∃ text partial, m1 = transcription text partial).
Proof.
  split_and!.
  - destruct m1 as [ | t1 [ | ] | v1 ], m2 as [ | t2 [ | ] | v2 ]; cbn;
      intros H; try discriminate H; try reflexivity; injection H as H; by subst.
  - destruct m1 as [ | t1 [ | ] | v1 ]; cbn; split;
      try discriminate; try (intros [text H]; discriminate H); eauto.
  - destruct m1 as [ | t1 [ | ] | v1 ]; cbn; split;
      try discriminate; try (intros (text & partial & H); discriminate H); eauto.
Qed.

Lemma payload_tells_messages_apart_witness :
  transcription "hello" true = transcription "hello" true
  ∧ ∃ text, transcription "hello" true = transcription text true.
Proof.
  destruct (payload_tells_messages_apart (transcription "hello" true)
              (transcription "hello" true)) as (Hinj & Hpartial & _).
  split; [ exact (Hinj eq_refl) | exact (proj1 Hpartial eq_refl) ].
Defined.

(** ** The stop signal *)

(** X21. Once the stop signal is set, by the last disconnection or by the
    shutdown, it stays set and no stream opens until a new connection comes:
    whatever happens meanwhile, the streams open afterwards were open
    before, a poll closes the stream of its task, and a capture task that
    starts then closes its stream at once (or fails to open it). *)
Theorem no_stream_opens_under_stop (evs : list event) (s s' : server) :
  should_stop s = true →
  Forall (λ ev, is_connect ev = false) evs →
  run s evs = Some s' →
  should_stop s' = true
  ∧ (∀ i, captures s' !! i = Some Open → captures s !! i = Some Open)
  ∧ (∀ i s'', step s' (Poll i) = Some s'' → captures s'' !! i = Some Closed)
  ∧ (∀ i device s'', step s' (Start i device) = Some s'' →
       captures s'' !! i = Some match device with
                                | Some e => Broken e
                                | None => Closed
                                end).
Proof.
  intros Hstop Hevs Hrun.
  destruct (run_under_stop evs s s' Hstop Hevs Hrun) as [Hstop' Hopen].
  split_and!; [ done | done | | ].
  - intros i s'' Hstep. apply step_poll in Hstep as (Hi & _ & _ & ->).
    rewrite Hstop'. apply list_lookup_insert_eq. by eapply lookup_lt_Some.
  - intros i device s'' Hstep. apply step_start in Hstep as (Hi & _ & _ & ->).
    rewrite Hstop'. apply list_lookup_insert_eq. by eapply lookup_lt_Some.
Qed.

Lemma no_stream_opens_under_stop_witness :
  ∃ s' s'',
    run (Server {[1]} true [Created; Open] []) [Start 0 None; Disconnect 1] = Some s'
    ∧ should_stop s' = true
    ∧ step s' (Poll 1) = Some s''
    ∧ captures s'' !! 1 = Some Closed.
Proof.
  destruct (run (Server {[1]} true [Created; Open] []) [Start 0 None; Disconnect 1])
    as [ s' | ] eqn:E; [ | by vm_compute in E ].
  destruct (step s' (Poll 1)) as [ s'' | ] eqn:E2;
    [ | exfalso; vm_compute in E; injection E as <-; by vm_compute in E2 ].
  destruct (no_stream_opens_under_stop [Start 0 None; Disconnect 1]
              (Server {[1]} true [Created; Open] []) s' eq_refl
              ltac:(repeat constructor) E) as (Hstop & _ & Hpoll & _).
  exists s', s''. split_and!; [ done | exact Hstop | done | by apply Hpoll ].
Defined.
